(** * snap-sizer: image size targeting, cropping, unit conversion and
      file-size formatting ([src/utils/imageUtils.ts], [useImageProcessor.tsx])

    The TypeScript sources work on JavaScript numbers.  They are embedded
    here as extended real numbers ([num]): the exceptional values [NaN],
    [+Infinity] and [-Infinity] are kept, finite values are real numbers and
    arithmetic on them is exact (rounding of IEEE doubles and the sign of
    zero are not modelled).  The browser objects the code talks to (image
    decoding, the 2D canvas and its encoder) are a record of host functions,
    and every [canvas.toBlob] call is logged with the canvas it encodes; the
    canvas holds its width and height as the unsigned integers the host
    converts an assigned number to. *)

From Stdlib Require Import Reals Lra Lia ZArith NArith QArith Qreals List String Ascii Bool DecimalString.
From Stdlib Require DecimalPos DecimalN Qpower.
Import ListNotations.

Local Open Scope R_scope.

(** ** JavaScript numbers *)

Inductive num : Type :=
| NaN
| PInf
| NInf
| Fin (r : R).

(** The operations of the language and of [Math] on [num]. *)
Module JS.

Definition Rltb (x y : R) : bool := if Rlt_dec x y then true else false.
Definition Rleb (x y : R) : bool := if Rle_dec x y then true else false.

Definition of_N (n : N) : num := Fin (IZR (Z.of_N n)).

(** [a < b]; every comparison with [NaN] is false. *)
Definition lt (a b : num) : bool :=
  match a, b with
  | NaN, _ | _, NaN => false
  | Fin x, Fin y => Rltb x y
  | NInf, NInf => false
  | NInf, _ => true
  | PInf, _ => false
  | Fin _, PInf => true
  | Fin _, NInf => false
  end.

(** [a <= b] *)
Definition le (a b : num) : bool :=
  match a, b with
  | NaN, _ | _, NaN => false
  | Fin x, Fin y => Rleb x y
  | NInf, _ => true
  | _, PInf => true
  | PInf, _ => false
  | Fin _, NInf => false
  end.

Definition gt (a b : num) : bool := lt b a.
Definition ge (a b : num) : bool := le b a.

Definition isNaN (a : num) : bool :=
  match a with NaN => true | _ => false end.

Definition neg (a : num) : num :=
  match a with
  | NaN => NaN
  | PInf => NInf
  | NInf => PInf
  | Fin x => Fin (- x)
  end.

Definition add (a b : num) : num :=
  match a, b with
  | NaN, _ | _, NaN => NaN
  | Fin x, Fin y => Fin (x + y)
  | PInf, NInf | NInf, PInf => NaN
  | PInf, _ | _, PInf => PInf
  | NInf, _ | _, NInf => NInf
  end.

Definition sub (a b : num) : num := add a (neg b).

(** An infinity of sign [pos] scaled by the finite factor [y]. *)
Definition scale_inf (pos : bool) (y : R) : num :=
  if Rltb 0 y then (if pos then PInf else NInf)
  else if Rltb y 0 then (if pos then NInf else PInf)
  else NaN.

Definition mul (a b : num) : num :=
  match a, b with
  | NaN, _ | _, NaN => NaN
  | Fin x, Fin y => Fin (x * y)
  | PInf, Fin y | Fin y, PInf => scale_inf true y
  | NInf, Fin y | Fin y, NInf => scale_inf false y
  | PInf, PInf | NInf, NInf => PInf
  | PInf, NInf | NInf, PInf => NInf
  end.

(** [a / b].  A zero divisor is the positive zero: [x / 0] is an infinity
    of the sign of [x], and [0 / 0] is [NaN]. *)
Definition div (a b : num) : num :=
  match a, b with
  | NaN, _ | _, NaN => NaN
  | Fin x, Fin y =>
      if Rltb y 0 then Fin (x / y)
      else if Rltb 0 y then Fin (x / y)
      else scale_inf true x
  | Fin _, (PInf | NInf) => Fin 0
  | (PInf | NInf), (PInf | NInf) => NaN
  | PInf, Fin y => if Rltb y 0 then NInf else PInf
  | NInf, Fin y => if Rltb y 0 then PInf else NInf
  end.

(** [Math.sqrt] *)
Definition sqrt (a : num) : num :=
  match a with
  | NaN | NInf => NaN
  | PInf => PInf
  | Fin x => if Rltb x 0 then NaN else Fin (R_sqrt.sqrt x)
  end.

(** [Math.floor] and [Math.ceil] *)
Definition floor (a : num) : num :=
  match a with
  | Fin x => Fin (IZR (Zfloor x))
  | _ => a
  end.

Definition ceil (a : num) : num :=
  match a with
  | Fin x => Fin (IZR (Zceil x))
  | _ => a
  end.

(** [Math.max] and [Math.min]: [NaN] when an argument is [NaN]. *)
Definition max (a b : num) : num :=
  match a, b with
  | NaN, _ | _, NaN => NaN
  | _, _ => if lt a b then b else a
  end.

Definition min (a b : num) : num :=
  match a, b with
  | NaN, _ | _, NaN => NaN
  | _, _ => if lt b a then b else a
  end.

(** [Math.abs] *)
Definition abs (a : num) : num :=
  match a with
  | NaN => NaN
  | PInf | NInf => PInf
  | Fin x => Fin (Rabs x)
  end.

Definition Reqb (x y : R) : bool := if Req_dec_T x y then true else false.

(** [a === b] on numbers *)
Definition strict_eq (a b : num) : bool :=
  match a, b with
  | Fin x, Fin y => Reqb x y
  | PInf, PInf | NInf, NInf => true
  | _, _ => false
  end.

(** [Math.log] *)
Definition log (a : num) : num :=
  match a with
  | NaN | NInf => NaN
  | PInf => PInf
  | Fin x =>
      if Rltb x 0 then NaN
      else if Rltb 0 x then Fin (ln x)
      else NInf
  end.

(** [Math.pow(base, e)] for a finite [base] above 1. *)
Definition pow (base : R) (e : num) : num :=
  match e with
  | NaN => NaN
  | PInf => PInf
  | NInf => Fin 0
  | Fin y => Fin (Rpower base y)
  end.

(** The array index a number denotes, if it is one. *)
Definition index_of (i : num) : option nat :=
  match i with
  | Fin r =>
      if Reqb r (IZR (Zfloor r)) && Rleb 0 r
      then Some (Z.to_nat (Zfloor r))
      else None
  | _ => None
  end.

End JS.

(** ** Strings and numeric literals

    Strings are sequences of ASCII characters. *)

Module Str.

Local Open Scope string_scope.
Local Open Scope char_scope.

Definition is_digit (c : ascii) : bool :=
  let n := N_of_ascii c in ((48 <=? n) && (n <=? 57))%N.

Definition digit_value (c : ascii) : N := (N_of_ascii c - 48)%N.

(** The ASCII members of [StrWhiteSpaceChar]: TAB, LF, VT, FF, CR, SP. *)
Definition is_space (c : ascii) : bool :=
  let n := N_of_ascii c in
  (((9 <=? n) && (n <=? 13)) || (n =? 32))%N.

Fixpoint trimStart (s : string) : string :=
  match s with
  | String c r => if is_space c then trimStart r else s
  | EmptyString => s
  end.

Definition lower (c : ascii) : ascii :=
  let n := N_of_ascii c in
  if ((65 <=? n) && (n <=? 90))%N then ascii_of_N (n + 32) else c.

(** [s.toLowerCase()] *)
Fixpoint toLowerCase (s : string) : string :=
  match s with
  | String c r => String (lower c) (toLowerCase r)
  | EmptyString => EmptyString
  end.

(** [s.includes(sub)] *)
Fixpoint includes (s sub : string) : bool :=
  String.prefix sub s
  || match s with
     | String _ r => includes r sub
     | EmptyString => false
     end.

(** A run of decimal digits read into [acc]: the value, the number of
    digits read, and the rest of the string. *)
Fixpoint digits (acc : N) (count : nat) (s : string) : N * nat * string :=
  match s with
  | String c r =>
      if is_digit c then digits (acc * 10 + digit_value c) (S count) r
      else (acc, count, s)
  | EmptyString => (acc, count, s)
  end.

(** What a [StrDecimalLiteral] denotes: [LNum neg m e] is
    [(-1)^neg * m * 10^e]. *)
Inductive Literal : Type :=
| LNaN
| LInf (neg : bool)
| LNum (neg : bool) (m : N) (e : Z).

Definition sign (s : string) : bool * string :=
  match s with
  | String "-" r => (true, r)
  | String "+" r => (false, r)
  | _ => (false, s)
  end.

(** The exponent part [e[+-]digits]; it is only part of the literal when it
    has a digit. *)
Definition exponent (s : string) : Z :=
  match s with
  | String c r =>
      if (Ascii.eqb c "e" || Ascii.eqb c "E")%bool then
        let (eneg, r') := sign r in
        let '(ev, ne, _) := digits 0 0 r' in
        match ne with
        | O => 0%Z
        | S _ => if eneg then (- Z.of_N ev)%Z else Z.of_N ev
        end
      else 0%Z
  | EmptyString => 0%Z
  end.

(** The longest prefix of the trimmed string that is a
    [StrDecimalLiteral], as [parseFloat] reads it. *)
Definition parseLiteral (s : string) : Literal :=
  let (neg, u) := sign (trimStart s) in
  if String.prefix "Infinity" u then LInf neg
  else
    let '(ip, ni, r1) := digits 0 0 u in
    let '(m, nf, r2) :=
      match r1 with
      | String "." r => digits ip 0 r
      | _ => (ip, O, r1)
      end in
    match (ni + nf)%nat with
    | O => LNaN
    | S _ => LNum neg m (exponent r2 - Z.of_nat nf)
    end.

(** The rational a finite literal denotes. *)
Definition literal_Q (neg : bool) (m : N) (e : Z) : Q :=
  Qred ((if neg then inject_Z (-1) else inject_Z 1)
        * inject_Z (Z.of_N m) * Qpower (inject_Z 10) e).

Definition literal_num (l : Literal) : num :=
  match l with
  | LNaN => NaN
  | LInf neg => if neg then NInf else PInf
  | LNum neg m e => Fin (Q2R (literal_Q neg m e))
  end.

(** [parseFloat(s)] *)
Definition parseFloat (s : string) : num := literal_num (parseLiteral s).

(** The decimal digits of a natural number. *)
Definition digits_of (n : N) : string :=
  DecimalString.NilEmpty.string_of_uint (N.to_uint n).

Fixpoint zeros (n : nat) : string :=
  match n with
  | O => EmptyString
  | S n' => String "0" (zeros n')
  end.

(** [s] padded on the left with zeros to [n] characters at least. *)
Definition pad_left (n : nat) (s : string) : string :=
  (zeros (n - String.length s) ++ s)%string.

Fixpoint strip_leading_zeros (l : list ascii) : list ascii :=
  match l with
  | c :: r => if Ascii.eqb c "0" then strip_leading_zeros r else l
  | [] => []
  end.

Definition strip_trailing_zeros (s : string) : string :=
  string_of_list_ascii
    (rev (strip_leading_zeros (rev (list_ascii_of_string s)))).

(** The digits of [n / 10^f] with exactly [f] digits after the point. *)
Definition positional (n : N) (f : nat) : string * string :=
  let d := pad_left (S f) (digits_of n) in
  let k := (String.length d - f)%nat in
  (String.substring 0 k d, String.substring k f d).

Definition fixed (n : N) (f : nat) : string :=
  let (ip, fp) := positional n f in
  match f with
  | O => ip
  | S _ => (ip ++ "." ++ fp)%string
  end.

(** [x.toFixed(f)]: the integer [n] nearest to [x * 10^f] (the larger one
    on a tie) written with [f] fraction digits; [None] is the [RangeError]
    for [f] outside 0..100.  (Magnitudes from 1e21 on, which [toFixed]
    writes in exponent notation, are written positionally as well.) *)
Definition toFixed (x : num) (f : Z) : option string :=
  if ((f <? 0) || (100 <? f))%Z then None
  else
    Some
      match x with
      | NaN => "NaN"%string
      | PInf => "Infinity"%string
      | NInf => "-Infinity"%string
      | Fin r =>
          let n (a : R) := Z.to_N (Zfloor (a * 10 ^ Z.to_nat f + / 2)) in
          if JS.Rltb r 0 then ("-" ++ fixed (n (- r)) (Z.to_nat f))%string
          else fixed (n r) (Z.to_nat f)
      end.

(** The string a number read from a literal converts to: the shortest
    positional decimal of its value.  (Exponent notation, used from 1e21 on
    and below 1e-6, is not modelled.) *)
Definition toString (l : Literal) : string :=
  match l with
  | LNaN => "NaN"%string
  | LInf neg => if neg then "-Infinity"%string else "Infinity"%string
  | LNum neg m e =>
      match m with
      | N0 => "0"%string
      | _ =>
          let body :=
            if (0 <=? e)%Z then (digits_of m ++ zeros (Z.to_nat e))%string
            else
              let (ip, fp) := positional m (Z.to_nat (- e)) in
              match strip_trailing_zeros fp with
              | EmptyString => ip
              | fp' => (ip ++ "." ++ fp')%string
              end in
          if neg then ("-" ++ body)%string else body
      end
  end.

End Str.

(** ** Host objects: files, images, the canvas and its encoder *)

(** A [File] (or the [Blob] it wraps): name, MIME type, byte size, content. *)
Record File : Type := mkFile {
  file_name : string;
  file_type : string;
  file_size : N;
  file_bits : list Byte.byte
}.

Record Blob : Type := mkBlob {
  blob_size : N;
  blob_bits : list Byte.byte
}.

(** [new File([blob], file.name, { type: file.type })] *)
Definition new_File (blob : Blob) (file : File) : File :=
  {| file_name := file_name file;
     file_type := file_type file;
     file_size := blob_size blob;
     file_bits := blob_bits blob |}.

(** A decoded [HTMLImageElement]. *)
Record Image : Type := mkImage {
  img_width : N;
  img_height : N;
  img_naturalWidth : N;
  img_naturalHeight : N
}.

(** One [ctx.drawImage] call: the five-argument form has no source
    rectangle, the nine-argument form has one. *)
Record DrawImage : Type := mkDraw {
  draw_img : Image;
  draw_src : option (num * num * num * num);
  draw_dst : num * num * num * num
}.

(** [canvas.width] and [canvas.height] are [unsigned long] attributes of the
    host.  An assigned number is converted as Web IDL prescribes: [NaN] and
    the infinities become 0, a finite number is truncated toward zero and
    reduced modulo 2^32.  A result above 2147483647 is then replaced by the
    attribute's default (300 for the width, 150 for the height).  Reading
    the attribute gives the number so obtained. *)
Module HTMLCanvas.

Definition truncate (x : R) : Z :=
  if JS.Rltb x 0 then Zceil x else Zfloor x.

Definition ToUint32 (v : num) : Z :=
  match v with
  | Fin x => (truncate x mod 2 ^ 32)%Z
  | _ => 0%Z
  end.

Definition dimension (default : Z) (v : num) : num :=
  let n := ToUint32 v in
  if (n <=? 2147483647)%Z then Fin (IZR n) else Fin (IZR default).

End HTMLCanvas.

Arguments HTMLCanvas.dimension : simpl never.

(** The canvas: its width and height as the host holds them, and the
    drawing calls since the bitmap was last cleared. *)
Record Canvas : Type := mkCanvas {
  canvas_width : num;
  canvas_height : num;
  canvas_drawn : list DrawImage
}.

(** [document.createElement('canvas')]: 300 x 150 and blank. *)
Definition createCanvas : Canvas :=
  {| canvas_width := Fin 300; canvas_height := Fin 150; canvas_drawn := [] |}.

(** [canvas.width = w] and [canvas.height = h]: the number is converted,
    and assigning a dimension clears the bitmap. *)
Definition set_width (c : Canvas) (w : num) : Canvas :=
  {| canvas_width := HTMLCanvas.dimension 300 w;
     canvas_height := canvas_height c;
     canvas_drawn := [] |}.

Definition set_height (c : Canvas) (h : num) : Canvas :=
  {| canvas_width := canvas_width c;
     canvas_height := HTMLCanvas.dimension 150 h;
     canvas_drawn := [] |}.

Definition drawImage (c : Canvas) (d : DrawImage) : Canvas :=
  {| canvas_width := canvas_width c;
     canvas_height := canvas_height c;
     canvas_drawn := canvas_drawn c ++ [d] |}.

(** One [canvas.toBlob(callback, type, quality)] call. *)
Record EncodeCall : Type := mkCall {
  call_canvas : Canvas;
  call_type : string;
  call_quality : num
}.

(** The host: [host_load] is the image the file decodes to ([None]: the
    [onerror] handler runs), [host_context] tells whether
    [canvas.getContext('2d')] is non-null, [host_toBlob] is the blob handed
    to the [toBlob] callback ([None]: the callback receives [null]). *)
Record Host : Type := mkHost {
  host_load : File -> option Image;
  host_context : bool;
  host_toBlob : EncodeCall -> option Blob
}.

(** How the returned promise settles. *)
Inductive Outcome : Type :=
| Resolved (f : File)
| Rejected (message : string).

(** A settled promise together with the [toBlob] calls made on the way. *)
Definition Run : Type := (Outcome * list EncodeCall)%type.

Definition logged (c : EncodeCall) (r : Run) : Run := (fst r, c :: snd r).

(** [canvas.toBlob] whose callback rejects on a null blob and otherwise
    continues with [k]. *)
Definition toBlob (host : Host) (c : EncodeCall)
    (k : Blob -> option Run) : option Run :=
  match host_toBlob host c with
  | None => Some (Rejected "Failed to create blob", [c])
  | Some blob => option_map (logged c) (k blob)
  end.

(** ** [resizeImageToSize] *)

(** The variables the [compressStep] closure mutates. *)
Record SearchState : Type := mkState {
  width : num;
  height : num;
  quality : num;
  currentIteration : Z;
  currentSize : num;
  bestMatchFile : option File;
  bestMatchDiff : num;
  canvas : Canvas
}.

Section Resize.

Variable host : Host.
Variable file : File.
Variable img : Image.
Variable targetSize : num.
Variable maxIterations : Z.

(** The parameter update of one iteration: the new [width], [height] and
    [quality] from the current ones and the last measured size. *)
Definition adjust (w h q cur : num) : num * num * num :=
  let ratio := JS.sqrt (JS.div targetSize cur) in
  let sizeDifference := JS.sub cur targetSize in
  if JS.gt sizeDifference (Fin 0) then
    if JS.gt sizeDifference (JS.mul targetSize (Fin 0.5)) then
      (JS.floor (JS.mul w (JS.max ratio (Fin 0.7))),
       JS.floor (JS.mul h (JS.max ratio (Fin 0.7))),
       q)
    else
      (w, h,
       JS.max (JS.mul q (JS.add (Fin 0.95)
                           (JS.mul (JS.sub ratio (Fin 1)) (Fin 0.1))))
              (Fin 0.5))
  else
    (JS.floor (JS.div w (JS.min ratio (Fin 1.2))),
     JS.floor (JS.div h (JS.min ratio (Fin 1.2))),
     JS.min (JS.mul q (Fin 1.05)) (Fin 1.0)).

(** [currentSize <= targetSize + tolerance && currentSize >= targetSize - tolerance]
    with [tolerance = targetSize * 0.05]. *)
Definition within_tolerance (cur : num) : bool :=
  let tolerance := JS.mul targetSize (Fin 0.05) in
  JS.le cur (JS.add targetSize tolerance)
  && JS.ge cur (JS.sub targetSize tolerance).

(** The recursive closure.  [fuel] bounds the recursion depth; [None] means
    the bound was too small. *)
Fixpoint compressStep (fuel : nat) (st : SearchState) : option Run :=
  match fuel with
  | O => None
  | S fuel' =>
    if (currentIteration st >=? maxIterations)%Z then
      match bestMatchFile st with
      | Some best => Some (Resolved best, [])
      | None =>
          toBlob host (mkCall (canvas st) (file_type file) (quality st))
            (fun blob => Some (Resolved (new_File blob file), []))
      end
    else
      let iteration := (currentIteration st + 1)%Z in
      let '(w, h, q) :=
        adjust (width st) (height st) (quality st) (currentSize st) in
      let cv := set_height (set_width (canvas st) w) h in
      let cv := drawImage cv (mkDraw img None (Fin 0, Fin 0, w, h)) in
      toBlob host (mkCall cv (file_type file) q)
        (fun blob =>
           let cur := JS.of_N (blob_size blob) in
           let diff := JS.abs (JS.sub cur targetSize) in
           let improved := JS.lt diff (bestMatchDiff st) in
           let bestDiff := if improved then diff else bestMatchDiff st in
           let bestFile :=
             if improved then Some (new_File blob file)
             else bestMatchFile st in
           if within_tolerance cur then
             Some (Resolved (new_File blob file), [])
           else
             compressStep fuel'
               (mkState w h q iteration cur bestFile bestDiff cv))
  end.

(** The body of [img.onload]. *)
Definition onload : option Run :=
  if JS.le (JS.of_N (file_size file)) targetSize then
    if negb (host_context host) then
      Some (Rejected "Could not get canvas context", [])
    else
      let scaleFactor :=
        JS.sqrt (JS.div targetSize (JS.of_N (file_size file))) in
      let w := JS.ceil (JS.mul (JS.of_N (img_width img)) scaleFactor) in
      let h := JS.ceil (JS.mul (JS.of_N (img_height img)) scaleFactor) in
      let q := Fin 1.0 in
      let cv := set_height (set_width createCanvas w) h in
      let cv := drawImage cv (mkDraw img None (Fin 0, Fin 0, w, h)) in
      toBlob host (mkCall cv (file_type file) q)
        (fun blob => Some (Resolved (new_File blob file), []))
  else
    if negb (host_context host) then
      Some (Rejected "Could not get canvas context", [])
    else
      compressStep (S (Z.to_nat maxIterations))
        (mkState (JS.of_N (img_width img)) (JS.of_N (img_height img))
           (Fin 0.9) 0%Z (JS.of_N (file_size file)) None PInf createCanvas).

End Resize.

(** [resizeImageToSize(file, targetSize, maxIterations = 20)] *)
Definition resizeImageToSize (host : Host) (file : File) (targetSize : num)
    (maxIterations : option Z) : option Run :=
  match host_load host file with
  | None => Some (Rejected "Failed to load image", [])
  | Some img =>
      onload host file img targetSize
        (match maxIterations with Some m => m | None => 20%Z end)
  end.

(** ** [cropImage] *)

(** [{ x, y, width, height }] *)
Record Rect : Type := mkRect {
  rect_x : num;
  rect_y : num;
  rect_width : num;
  rect_height : num
}.

(** [{ width, height }] *)
Record Dimensions : Type := mkDim {
  dim_width : num;
  dim_height : num
}.

(** [cropArea] scaled from the displayed size to the natural image size. *)
Definition scaledCropArea (img : Image) (cropArea : Rect)
    (canvasDimensions : Dimensions) : Rect :=
  let scaleX :=
    JS.div (JS.of_N (img_naturalWidth img)) (dim_width canvasDimensions) in
  let scaleY :=
    JS.div (JS.of_N (img_naturalHeight img)) (dim_height canvasDimensions) in
  {| rect_x := JS.mul (rect_x cropArea) scaleX;
     rect_y := JS.mul (rect_y cropArea) scaleY;
     rect_width := JS.mul (rect_width cropArea) scaleX;
     rect_height := JS.mul (rect_height cropArea) scaleY |}.

Definition cropImage (host : Host) (file : File) (cropArea : Rect)
    (canvasDimensions : Dimensions) : option Run :=
  match host_load host file with
  | None => Some (Rejected "Failed to load image", [])
  | Some img =>
      if negb (host_context host) then
        Some (Rejected "Could not get canvas context", [])
      else
        let cv := set_width createCanvas (rect_width cropArea) in
        let cv := set_height cv (rect_height cropArea) in
        let sc := scaledCropArea img cropArea canvasDimensions in
        let cv :=
          drawImage cv
            (mkDraw img
               (Some (rect_x sc, rect_y sc, rect_width sc, rect_height sc))
               (Fin 0, Fin 0, canvas_width cv, canvas_height cv)) in
        toBlob host (mkCall cv (file_type file) (Fin 1.0))
          (fun blob => Some (Resolved (new_File blob file), []))
  end.

(** ** [convertUnits] *)

Module convertUnits.

Definition dpi_or_default (dpi : option num) : num :=
  match dpi with Some d => d | None => Fin 96 end.

Definition pixelsToInches (pixels : num) (dpi : option num) : num :=
  JS.div pixels (dpi_or_default dpi).

Definition inchesToPixels (inches : num) (dpi : option num) : num :=
  JS.mul inches (dpi_or_default dpi).

Definition pixelsToCm (pixels : num) (dpi : option num) : num :=
  JS.mul (JS.div pixels (dpi_or_default dpi)) (Fin 2.54).

Definition cmToPixels (cm : num) (dpi : option num) : num :=
  JS.mul (JS.div cm (Fin 2.54)) (dpi_or_default dpi).

End convertUnits.

(** ** [formatFileSize] and [parseFileSize] *)

(** [sizes[i]] converted to a string: an absent element is [undefined]. *)
Definition element (sizes : list string) (i : num) : string :=
  match JS.index_of i with
  | Some n => nth n sizes "undefined"%string
  | None => "undefined"%string
  end.

(** [formatFileSize(bytes, decimals = 2)]; [None] when [toFixed] throws. *)
Definition formatFileSize (bytes : num) (decimals : option Z)
    : option string :=
  let decimals := match decimals with Some d => d | None => 2%Z end in
  if JS.strict_eq bytes (Fin 0) then Some "0 Bytes"%string
  else
    let k := 1024 in
    let dm := if (decimals <? 0)%Z then 0%Z else decimals in
    let sizes := ["Bytes"; "KB"; "MB"; "GB"]%string in
    let i := JS.floor (JS.div (JS.log bytes) (JS.log (Fin k))) in
    match Str.toFixed (JS.div bytes (JS.pow k i)) dm with
    | None => None
    | Some s =>
        Some (Str.toString (Str.parseLiteral s) ++ " " ++ element sizes i)%string
    end.

Definition parseFileSize (sizeStr : string) : num :=
  let value := Str.parseFloat sizeStr in
  if JS.isNaN value then Fin 0
  else if Str.includes (Str.toLowerCase sizeStr) "kb" then
    JS.mul value (Fin 1024)
  else if Str.includes (Str.toLowerCase sizeStr) "mb" then
    JS.mul (JS.mul value (Fin 1024)) (Fin 1024)
  else if Str.includes (Str.toLowerCase sizeStr) "gb" then
    JS.mul (JS.mul (JS.mul value (Fin 1024)) (Fin 1024)) (Fin 1024)
  else value.

(** ** The [resizeImage] callback of [useImageProcessor] *)

(** What the callback reports: the toast it shows and what it returns. *)
Inductive ResizeReport : Type :=
| NoImage                  (* error toast 'Please upload an image first', null *)
| InvalidSize              (* error toast 'Please enter a valid file size', null *)
| Resized (f : File) (warned : bool)
                           (* the result; a warning toast when more than 10% off *)
| ResizeFailed.            (* error toast 'Failed to resize image', null *)

Definition resizeImage (host : Host) (originalImage : option File)
    (targetSizeStr : string) : option (ResizeReport * list EncodeCall) :=
  match originalImage with
  | None => Some (NoImage, [])
  | Some original =>
      let targetSizeBytes := parseFileSize targetSizeStr in
      if JS.le targetSizeBytes (Fin 0) then Some (InvalidSize, [])
      else
        match resizeImageToSize host original targetSizeBytes None with
        | None => None
        | Some (Rejected _, calls) => Some (ResizeFailed, calls)
        | Some (Resolved resizedFile, calls) =>
            let difference :=
              JS.abs (JS.sub (JS.of_N (file_size resizedFile))
                        targetSizeBytes) in
            let differencePercentage :=
              JS.mul (JS.div difference targetSizeBytes) (Fin 100) in
            Some (Resized resizedFile (JS.gt differencePercentage (Fin 10)),
                  calls)
        end
  end.

(** ** [parseInt] *)

Module Int.

Local Open Scope char_scope.

Definition is_hex_digit (c : ascii) : bool :=
  let n := N_of_ascii c in
  (((48 <=? n) && (n <=? 57)) || ((65 <=? n) && (n <=? 70))
   || ((97 <=? n) && (n <=? 102)))%N.

Definition hex_value (c : ascii) : N :=
  let n := N_of_ascii c in
  (if n <=? 57 then n - 48 else if n <=? 70 then n - 55 else n - 87)%N.

(** A run of hexadecimal digits read into [acc]: the value, the number of
    digits read, and the rest of the string. *)
Fixpoint hex_digits (acc : N) (count : nat) (s : string)
    : N * nat * string :=
  match s with
  | String c r =>
      if is_hex_digit c then hex_digits (acc * 16 + hex_value c) (S count) r
      else (acc, count, s)
  | EmptyString => (acc, count, s)
  end.

(** [parseInt(s)] without a radix: leading white space and a sign are
    skipped, a prefix [0x] or [0X] selects base 16, and the digits up to the
    first other character are read; [NaN] when there is no digit. *)
Definition parseInt (s : string) : num :=
  let (neg, u) := Str.sign (Str.trimStart s) in
  let '(v, n, _) :=
    match u with
    | String "0" (String c r) =>
        if (Ascii.eqb c "x" || Ascii.eqb c "X")%bool
        then hex_digits 0 0 r
        else Str.digits 0 0 u
    | _ => Str.digits 0 0 u
    end in
  match n with
  | O => NaN
  | S _ => Fin (IZR (if neg then - Z.of_N v else Z.of_N v))
  end.

End Int.

(** ** The crop box of [ImageCropper] *)

Inductive Handle : Type := topLeft | topRight | bottomLeft | bottomRight.

Inductive LengthUnit : Type := inches | cm.

(** The crop box [handleMouseMove] stores while the box is dragged by
    [(dx, dy)] on a canvas of size [cv]. *)
Definition moveCropBox (cv : Dimensions) (prev : Rect) (dx dy : num)
    : Rect :=
  {| rect_x :=
       JS.max (Fin 0)
         (JS.min (JS.sub (dim_width cv) (rect_width prev))
                 (JS.add (rect_x prev) dx));
     rect_y :=
       JS.max (Fin 0)
         (JS.min (JS.sub (dim_height cv) (rect_height prev))
                 (JS.add (rect_y prev) dy));
     rect_width := rect_width prev;
     rect_height := rect_height prev |}.

(** The crop box [handleMouseMove] stores while the corner [handle] is
    dragged by [(dx, dy)]. *)
Definition resizeCropBox (handle : Handle) (cv : Dimensions)
    (cropBox : Rect) (dx dy : num) : Rect :=
  let x := rect_x cropBox in
  let y := rect_y cropBox in
  let w := rect_width cropBox in
  let h := rect_height cropBox in
  let newCropBox :=
    match handle with
    | topLeft =>
        {| rect_x := JS.min (JS.add x dx) (JS.sub (JS.add x w) (Fin 10));
           rect_y := JS.min (JS.add y dy) (JS.sub (JS.add y h) (Fin 10));
           rect_width := JS.sub w dx;
           rect_height := JS.sub h dy |}
    | topRight =>
        {| rect_x := x;
           rect_y := JS.min (JS.add y dy) (JS.sub (JS.add y h) (Fin 10));
           rect_width := JS.max (Fin 10) (JS.add w dx);
           rect_height := JS.sub h dy |}
    | bottomLeft =>
        {| rect_x := JS.min (JS.add x dx) (JS.sub (JS.add x w) (Fin 10));
           rect_y := y;
           rect_width := JS.sub w dx;
           rect_height := JS.max (Fin 10) (JS.add h dy) |}
    | bottomRight =>
        {| rect_x := x;
           rect_y := y;
           rect_width := JS.max (Fin 10) (JS.add w dx);
           rect_height := JS.max (Fin 10) (JS.add h dy) |}
    end in
  let x' := JS.max (Fin 0) (rect_x newCropBox) in
  let y' := JS.max (Fin 0) (rect_y newCropBox) in
  {| rect_x := x';
     rect_y := y';
     rect_width :=
       JS.min (JS.sub (dim_width cv) x') (rect_width newCropBox);
     rect_height :=
       JS.min (JS.sub (dim_height cv) y') (rect_height newCropBox) |}.

(** The size fields of the cropper: the unit and the two input strings. *)
Record SizeForm : Type := mkForm {
  form_unit : LengthUnit;
  form_width : string;
  form_height : string
}.

(** [handleUnitChange(newUnit)]; [None] when [toFixed] throws. *)
Definition handleUnitChange (newUnit : LengthUnit) (st : SizeForm)
    : option SizeForm :=
  match newUnit, form_unit st with
  | cm, inches =>
      match Str.toFixed
              (JS.mul (Str.parseFloat (form_width st)) (Fin 2.54)) 2,
            Str.toFixed
              (JS.mul (Str.parseFloat (form_height st)) (Fin 2.54)) 2 with
      | Some w, Some h => Some (mkForm newUnit w h)
      | _, _ => None
      end
  | inches, cm =>
      match Str.toFixed
              (JS.div (Str.parseFloat (form_width st)) (Fin 2.54)) 2,
            Str.toFixed
              (JS.div (Str.parseFloat (form_height st)) (Fin 2.54)) 2 with
      | Some w, Some h => Some (mkForm newUnit w h)
      | _, _ => None
      end
  | _, _ => Some (mkForm newUnit (form_width st) (form_height st))
  end.

(** A rectangle with finite coordinates whose corner is not left of or
    above the origin and whose far edges are not beyond [W] and [H]. *)
Definition rect_inside (r : Rect) (W H : R) : Prop :=
  exists x y w h,
    r = {| rect_x := Fin x; rect_y := Fin y;
           rect_width := Fin w; rect_height := Fin h |}
    /\ 0 <= x /\ 0 <= y /\ x + w <= W /\ y + h <= H.

(** A rectangle of non-negative size lying inside [0, W] x [0, H]. *)
Definition rect_within (r : Rect) (W H : R) : Prop :=
  exists x y w h,
    r = {| rect_x := Fin x; rect_y := Fin y;
           rect_width := Fin w; rect_height := Fin h |}
    /\ 0 <= x /\ 0 <= y /\ 0 <= w /\ 0 <= h /\ x + w <= W /\ y + h <= H.

(** The drag [(dx, dy)] of the corner [handle] of a [w] x [h] box does not
    carry the corner past the opposite edges of the box. *)
Definition keeps_side (handle : Handle) (w h dx dy : R) : Prop :=
  match handle with
  | topLeft => dx <= w /\ dy <= h
  | topRight => dy <= h
  | bottomLeft => dx <= w
  | bottomRight => True
  end.

(** ** The size slider of [ImageResizer] *)

Inductive SizeType : Type := KB | MB.

(** [s.split(sep)] for a one-character separator. *)
Fixpoint split (sep : ascii) (s : string) : list string :=
  match s with
  | EmptyString => [EmptyString]
  | String c r =>
      if Ascii.eqb c sep then EmptyString :: split sep r
      else
        match split sep r with
        | h :: t => String c h :: t
        | [] => [String c EmptyString]
        end
  end.

(** An array element converted to a string: an absent one is
    [undefined]. *)
Definition element_string (o : option string) : string :=
  match o with Some s => s | None => "undefined"%string end.

(** [o === s] for an array element [o]. *)
Definition element_is (o : option string) (s : string) : bool :=
  match o with Some u => String.eqb u s | None => false end.

Definition is_KB (t : SizeType) : bool :=
  match t with KB => true | MB => false end.

Definition is_MB (t : SizeType) : bool :=
  match t with MB => true | KB => false end.

(** [getOriginalSizeInCurrentUnit()], from the text of the original size
    and the unit selected. *)
Definition getOriginalSizeInCurrentUnit (originalSize : string)
    (sizeType : SizeType) : num :=
  let sizeInBytes :=
    Int.parseInt (element_string (nth_error (split " " originalSize) 0)) in
  let sizeUnit := nth_error (split " " originalSize) 1 in
  if element_is sizeUnit "KB" && is_KB sizeType then sizeInBytes
  else if element_is sizeUnit "MB" && is_MB sizeType then sizeInBytes
  else if element_is sizeUnit "KB" && is_MB sizeType then
    JS.div sizeInBytes (Fin 1024)
  else if element_is sizeUnit "MB" && is_KB sizeType then
    JS.mul sizeInBytes (Fin 1024)
  else if is_MB sizeType then Fin 5 else Fin 5000.

(** [maxSize], the upper end of the slider and of the input. *)
Definition maxSize (originalSize : string) (sizeType : SizeType) : num :=
  JS.ceil (getOriginalSizeInCurrentUnit originalSize sizeType).

(** ** Notions the properties are stated with *)

(** A quality in the closed interval from 0.5 to 1. *)
Definition quality_in_range (q : num) : Prop :=
  exists r, q = Fin r /\ 0.5 <= r <= 1.

(** The distance of an encoded size to the target. *)
Definition distance (t : R) (b : Blob) : R :=
  Rabs (IZR (Z.of_N (blob_size b)) - t).

(** An encoded size within 5% of the target. *)
Definition converged (t : R) (b : Blob) : Prop :=
  distance t b <= 0.05 * t.

(** How the shrink regime ends, for an encoder [encode], a target [t] and
    a bound of [m] iterations: [calls] are the encode calls made and [best]
    is the call whose blob is returned.  Either [best] is the last call and
    the first one to land within 5% of the target; or all [m] iterations
    ran without landing there and [best] is the earliest call at the least
    distance to the target; or no iteration was allowed and the
    [untouched] canvas is encoded. *)
Definition best_effort (encode : EncodeCall -> Blob) (t : R) (m : Z)
    (untouched : EncodeCall) (calls : list EncodeCall) (best : EncodeCall)
    : Prop :=
  (exists pre,
      calls = pre ++ [best]
      /\ (Z.of_nat (List.length calls) <= m)%Z
      /\ converged t (encode best)
      /\ Forall (fun c => ~ converged t (encode c)) pre)
  \/ (exists pre post,
         calls = pre ++ best :: post
         /\ Z.of_nat (List.length calls) = m
         /\ Forall (fun c => ~ converged t (encode c)) calls
         /\ Forall (fun c =>
                      distance t (encode best) < distance t (encode c)) pre
         /\ Forall (fun c =>
                      distance t (encode best) <= distance t (encode c)) post)
  \/ ((m <= 0)%Z /\ calls = [best] /\ best = untouched).

(** What the loop variables [bestMatchFile] and [bestMatchDiff] record
    about the calls [prev] made so far: nothing yet, or the earliest call at
    the least distance to the target. *)
Definition tracks_best (encode : EncodeCall -> Blob) (file : File) (t : R)
    (prev : list EncodeCall) (st : SearchState) : Prop :=
  (prev = [] /\ bestMatchFile st = None /\ bestMatchDiff st = PInf)
  \/ (exists pre best post,
         prev = pre ++ best :: post
         /\ bestMatchFile st = Some (new_File (encode best) file)
         /\ bestMatchDiff st = Fin (distance t (encode best))
         /\ Forall (fun c =>
                      distance t (encode best) < distance t (encode c)) pre
         /\ Forall (fun c =>
                      distance t (encode best) <= distance t (encode c)) post).

(** [sub] occurs in [s] up to the case of ASCII letters. *)
Definition contains_ignoring_case (s sub : string) : Prop :=
  exists pre mid post,
    s = (pre ++ mid ++ post)%string /\ Str.toLowerCase mid = sub.

(** [formatFileSize] on an integer byte count, by integer arithmetic: the
    unit index is [floor(log2(bytes) / 10)] and the scaled value is rounded
    to [dm] decimals by an integer division. *)
Definition formatBytes (bytes : Z) (decimals : option Z) : option string :=
  let decimals := match decimals with Some d => d | None => 2%Z end in
  if (bytes =? 0)%Z then Some "0 Bytes"%string
  else
    let dm := if (decimals <? 0)%Z then 0%Z else decimals in
    let sizes := ["Bytes"; "KB"; "MB"; "GB"]%string in
    let i := (Z.log2 bytes / 10)%Z in
    if (100 <? dm)%Z then None
    else
      let n := ((2 * bytes * 10 ^ dm + 1024 ^ i) / (2 * 1024 ^ i))%Z in
      Some (Str.toString
              (Str.parseLiteral (Str.fixed (Z.to_N n) (Z.to_nat dm)))
            ++ " " ++ nth (Z.to_nat i) sizes "undefined")%string.

(** An encode call whose canvas has whole, non-negative dimensions no
    larger than the image's. *)
Definition canvas_within (img : Image) (c : EncodeCall) : Prop :=
  exists w h : Z,
    canvas_width (call_canvas c) = Fin (IZR w)
    /\ canvas_height (call_canvas c) = Fin (IZR h)
    /\ (0 <= w <= Z.of_N (img_width img))%Z
    /\ (0 <= h <= Z.of_N (img_height img))%Z.

(** [f] is the blob of one of the [calls], under the name and type of
    [file]. *)
Definition encoded_by (host : Host) (file : File) (calls : list EncodeCall)
    (f : File) : Prop :=
  exists c blob,
    In c calls /\ host_toBlob host c = Some blob /\ f = new_File blob file.

(** A string of decimal digits only, and the number it denotes when read
    after the digits of [acc]. *)
Fixpoint all_digits (s : string) : bool :=
  match s with
  | String c r => Str.is_digit c && all_digits r
  | EmptyString => true
  end.

Fixpoint number_from (acc : N) (s : string) : N :=
  match s with
  | String c r => number_from (acc * 10 + Str.digit_value c) r
  | EmptyString => acc
  end.

(** A string that cannot continue a decimal literal: it is empty or starts
    with a character other than a digit, a point and an exponent mark. *)
Definition ends_literal (s : string) : bool :=
  match s with
  | String c _ =>
      negb (Str.is_digit c || Ascii.eqb c "." || Ascii.eqb c "e"
            || Ascii.eqb c "E")
  | EmptyString => true
  end.

(** A string of decimal digits and points only. *)
Fixpoint numeric (s : string) : bool :=
  match s with
  | String c r => (Str.is_digit c || Ascii.eqb c ".") && numeric r
  | EmptyString => true
  end.

(** The text [s] reads, with [parseFloat], as a number that is not
    negative and within [tol] of [x]. *)
Definition reads_within (s : string) (x tol : R) : Prop :=
  exists v, Str.parseFloat s = Fin v /\ 0 <= v /\ Rabs (v - x) <= tol.

(** ** Sample inputs *)

Module Sample.

Definition photo : File :=
  {| file_name := "photo.jpg"; file_type := "image/jpeg";
     file_size := 1000; file_bits := [] |}.

Definition image : Image :=
  {| img_width := 400; img_height := 400;
     img_naturalWidth := 400; img_naturalHeight := 400 |}.

(** A 100,000-byte file. *)
Definition small_photo : File :=
  {| file_name := "small.jpg"; file_type := "image/jpeg";
     file_size := 100000; file_bits := [] |}.

(** A host whose encoder always yields a blob of [n] bytes. *)
Definition constant_host (n : N) : Host :=
  {| host_load := fun _ => Some image;
     host_context := true;
     host_toBlob := fun _ => Some (mkBlob n []) |}.

(** The encode call of one loop iteration on the sample photo: a square
    canvas of side [w] with the whole image drawn on it. *)
Definition square_call (w q : R) : EncodeCall :=
  {| call_canvas :=
       {| canvas_width := Fin w; canvas_height := Fin w;
          canvas_drawn :=
            [ {| draw_img := image; draw_src := None;
                 draw_dst := (Fin 0, Fin 0, Fin w, Fin w) |} ] |};
     call_type := "image/jpeg";
     call_quality := Fin q |}.

(** A crop box reaching beyond the right edge of a 200 x 200 display. *)
Definition overhanging : Rect :=
  {| rect_x := Fin 150; rect_y := Fin 0;
     rect_width := Fin 100; rect_height := Fin 100 |}.

(** A region that is not a whole number of pixels. *)
Definition fractional : Rect :=
  {| rect_x := Fin 0; rect_y := Fin 0;
     rect_width := Fin 100.7; rect_height := Fin 50.2 |}.

Definition corner : Rect :=
  {| rect_x := Fin 0; rect_y := Fin 0;
     rect_width := Fin 100; rect_height := Fin 100 |}.

Definition display : Dimensions :=
  {| dim_width := Fin 200; dim_height := Fin 200 |}.

End Sample.

(** * Properties *)

(** ** Evaluating comparisons and arithmetic on finite numbers *)

Lemma Rltb_true (x y : R) : x < y -> JS.Rltb x y = true.
Proof. intros H; unfold JS.Rltb; destruct (Rlt_dec x y); [reflexivity | lra]. Qed.

Lemma Rltb_false (x y : R) : y <= x -> JS.Rltb x y = false.
Proof. intros H; unfold JS.Rltb; destruct (Rlt_dec x y); [lra | reflexivity]. Qed.

Lemma Rleb_true (x y : R) : x <= y -> JS.Rleb x y = true.
Proof. intros H; unfold JS.Rleb; destruct (Rle_dec x y); [reflexivity | lra]. Qed.

Lemma Rleb_false (x y : R) : y < x -> JS.Rleb x y = false.
Proof. intros H; unfold JS.Rleb; destruct (Rle_dec x y); [lra | reflexivity]. Qed.

Lemma Reqb_true (x y : R) : x = y -> JS.Reqb x y = true.
Proof. intros H; unfold JS.Reqb; destruct (Req_dec_T x y); [reflexivity | lra]. Qed.

Lemma Reqb_false (x y : R) : x <> y -> JS.Reqb x y = false.
Proof.
  intros H; unfold JS.Reqb; destruct (Req_dec_T x y); [contradiction | reflexivity].
Qed.

(** Case analysis on every comparison of reals in sight. *)
Ltac rdec :=
  unfold JS.Rltb, JS.Rleb, JS.Reqb in *;
  repeat match goal with
    | |- context [Rlt_dec ?x ?y] => destruct (Rlt_dec x y)
    | |- context [Rle_dec ?x ?y] => destruct (Rle_dec x y)
    | |- context [Req_dec_T ?x ?y] => destruct (Req_dec_T x y)
    | H : context [Rlt_dec ?x ?y] |- _ => destruct (Rlt_dec x y)
    | H : context [Rle_dec ?x ?y] |- _ => destruct (Rle_dec x y)
    | H : context [Req_dec_T ?x ?y] |- _ => destruct (Req_dec_T x y)
    end;
  try discriminate; try lra.

Lemma div_Fin (x y : R) : 0 < y -> JS.div (Fin x) (Fin y) = Fin (x / y).
Proof. intros H; simpl; rdec; reflexivity. Qed.

Lemma sqrt_Fin (x : R) : 0 <= x -> JS.sqrt (Fin x) = Fin (sqrt x).
Proof. intros H; simpl; rdec; reflexivity. Qed.

Lemma le_Fin (x y : R) : x <= y -> JS.le (Fin x) (Fin y) = true.
Proof. intros H; simpl; now apply Rleb_true. Qed.

Lemma lt_Fin (x y : R) : x < y -> JS.lt (Fin x) (Fin y) = true.
Proof. intros H; simpl; now apply Rltb_true. Qed.

Lemma le_Fin_false (x y : R) : y < x -> JS.le (Fin x) (Fin y) = false.
Proof. intros H; simpl; now apply Rleb_false. Qed.

Lemma lt_Fin_false (x y : R) : y <= x -> JS.lt (Fin x) (Fin y) = false.
Proof. intros H; simpl; now apply Rltb_false. Qed.

Lemma floor_Fin (x : R) (z : Z) :
  IZR z <= x < IZR z + 1 -> JS.floor (Fin x) = Fin (IZR z).
Proof. intros H; simpl; now rewrite (Zfloor_eq z x H). Qed.

Lemma ceil_Fin (x : R) (z : Z) :
  IZR z - 1 < x <= IZR z -> JS.ceil (Fin x) = Fin (IZR z).
Proof. intros H; simpl; now rewrite (Zceil_eq z x H). Qed.

(** ** Unit conversion *)

(** C10: converting a finite value to pixels and back, at any positive dpi
    (given or the default 96), returns the value itself, for inches and for
    centimetres; nothing is rounded on the way. *)
Theorem convertUnits_round_trip (x d : R) (dpi : option num) :
  convertUnits.dpi_or_default dpi = Fin d ->
  0 < d ->
  convertUnits.pixelsToInches
    (convertUnits.inchesToPixels (Fin x) dpi) dpi = Fin x
  /\ convertUnits.pixelsToCm
       (convertUnits.cmToPixels (Fin x) dpi) dpi = Fin x.
Proof.
  intros Hd Hpos.
  unfold convertUnits.pixelsToInches, convertUnits.inchesToPixels,
    convertUnits.pixelsToCm, convertUnits.cmToPixels.
  rewrite Hd; split.
  - simpl JS.mul. rewrite div_Fin by assumption. f_equal. field. lra.
  - rewrite (div_Fin x 2.54) by lra. simpl JS.mul at 2.
    rewrite div_Fin by assumption. simpl. f_equal. field. lra.
Qed.

(** At the default 96 dpi, 2.5 inches and 2.5 cm come back unchanged. *)
Lemma convertUnits_round_trip_witness :
  convertUnits.dpi_or_default None = Fin 96
  /\ 0 < 96
  /\ convertUnits.pixelsToInches
       (convertUnits.inchesToPixels (Fin 2.5) None) None = Fin 2.5
  /\ convertUnits.pixelsToCm
       (convertUnits.cmToPixels (Fin 2.5) None) None = Fin 2.5.
Proof.
  split; [reflexivity | split; [lra |]].
  apply (convertUnits_round_trip 2.5 96 None); [reflexivity | lra].
Defined.

(** ** Cropping *)

(** The host's conversion of an assigned canvas dimension, on finite
    numbers from 0 up to the largest dimension: the whole part. *)
Lemma dimension_Fin (default z : Z) (x : R) :
  (0 <= z <= 2147483647)%Z -> IZR z <= x < IZR z + 1 ->
  HTMLCanvas.dimension default (Fin x) = Fin (IZR z).
Proof.
  intros Hz Hx.
  assert (H0 : 0 <= x) by (pose proof (IZR_le 0 z (proj1 Hz)); lra).
  unfold HTMLCanvas.dimension, HTMLCanvas.ToUint32, HTMLCanvas.truncate.
  rewrite (Rltb_false x 0 H0), (Zfloor_eq z x Hx).
  rewrite Z.mod_small by lia.
  destruct (Z.leb_spec z 2147483647); [reflexivity | lia].
Qed.

Lemma dimension_whole (default z : Z) :
  (0 <= z <= 2147483647)%Z ->
  HTMLCanvas.dimension default (Fin (IZR z)) = Fin (IZR z).
Proof. intros Hz. apply dimension_Fin; [exact Hz | lra]. Qed.

(** C6, as the code has it: when the image loads and a 2D context is
    available, [cropImage] makes exactly one encode call, at quality 1.0.
    The source rectangle drawn is the region's [x, y, width, height] scaled
    by [naturalWidth / displayWidth] and [naturalHeight / displayHeight].
    The canvas encoded, and the destination drawn onto, have the width and
    height the host holds after [canvas.width = cropArea.width] and
    [canvas.height = cropArea.height]: for a finite size from 0 up to the
    largest canvas dimension that is the region's size with its fraction
    dropped, hence exactly the region's size when that is a whole number of
    pixels.  The promise settles with the one encode's blob. *)
Theorem cropImage_single_scaled_encode
    (host : Host) (file : File) (img : Image)
    (cropArea : Rect) (canvasDimensions : Dimensions) :
  host_load host file = Some img ->
  host_context host = true ->
  let scaleX :=
    JS.div (JS.of_N (img_naturalWidth img)) (dim_width canvasDimensions) in
  let scaleY :=
    JS.div (JS.of_N (img_naturalHeight img)) (dim_height canvasDimensions) in
  let width := HTMLCanvas.dimension 300 (rect_width cropArea) in
  let height := HTMLCanvas.dimension 150 (rect_height cropArea) in
  let call :=
    {| call_canvas :=
         {| canvas_width := width;
            canvas_height := height;
            canvas_drawn :=
              [ {| draw_img := img;
                   draw_src :=
                     Some (JS.mul (rect_x cropArea) scaleX,
                           JS.mul (rect_y cropArea) scaleY,
                           JS.mul (rect_width cropArea) scaleX,
                           JS.mul (rect_height cropArea) scaleY);
                   draw_dst := (Fin 0, Fin 0, width, height) |} ] |};
       call_type := file_type file;
       call_quality := Fin 1.0 |} in
  cropImage host file cropArea canvasDimensions
  = Some (match host_toBlob host call with
          | Some blob => Resolved (new_File blob file)
          | None => Rejected "Failed to create blob"
          end, [call])
  /\ (forall w : R,
        rect_width cropArea = Fin w -> 0 <= w < 2147483648 ->
        width = JS.floor (rect_width cropArea))
  /\ (forall h : R,
        rect_height cropArea = Fin h -> 0 <= h < 2147483648 ->
        height = JS.floor (rect_height cropArea))
  /\ (forall w h : Z,
        rect_width cropArea = Fin (IZR w) ->
        rect_height cropArea = Fin (IZR h) ->
        (0 <= w <= 2147483647)%Z -> (0 <= h <= 2147483647)%Z ->
        width = rect_width cropArea /\ height = rect_height cropArea).
Proof.
  intros Hload Hctx scaleX scaleY width height call.
  assert (Hfloor : forall (d : Z) (x : R),
             0 <= x < 2147483648 ->
             HTMLCanvas.dimension d (Fin x) = JS.floor (Fin x)).
  { intros d x Hx. cbn [JS.floor].
    pose proof (Zfloor_bound x) as [Hlo Hhi].
    apply dimension_Fin; [| lra].
    split.
    - apply le_IZR. apply Rnot_lt_le. intros Hneg.
      assert (IZR (Zfloor x) <= -1)
        by (apply (IZR_le _ (-1)); apply lt_IZR in Hneg; lia).
      lra.
    - assert (Hlt : (Zfloor x < 2147483648)%Z) by (apply lt_IZR; lra).
      lia. }
  split; [| split; [| split]].
  - unfold cropImage. rewrite Hload, Hctx. cbn [negb].
    unfold toBlob, scaledCropArea, set_height, set_width, drawImage.
    cbn -[JS.div JS.mul]. fold scaleX scaleY width height. fold call.
    destruct (host_toBlob host call); reflexivity.
  - intros w Hw Hrange. subst width. rewrite Hw. now apply Hfloor.
  - intros h Hh Hrange. subst height. rewrite Hh. now apply Hfloor.
  - intros w h Hw Hh Hwr Hhr. subst width height. rewrite Hw, Hh.
    split; now apply dimension_whole.
Qed.

(** The example of the specification: a 400 x 400 image shown at
    200 x 200, cropped to the 100 x 100 box at the origin, is sampled on the
    native rectangle (0, 0, 200, 200) and encoded at 100 x 100. *)
Lemma cropImage_single_scaled_encode_witness :
  let host := Sample.constant_host 10 in
  host_load host Sample.photo = Some Sample.image
  /\ host_context host = true
  /\ cropImage host Sample.photo Sample.corner Sample.display
     = Some (Resolved (new_File (mkBlob 10 []) Sample.photo),
             [ {| call_canvas :=
                    {| canvas_width := Fin 100;
                       canvas_height := Fin 100;
                       canvas_drawn :=
                         [ {| draw_img := Sample.image;
                              draw_src :=
                                Some (Fin 0, Fin 0, Fin 200, Fin 200);
                              draw_dst :=
                                (Fin 0, Fin 0, Fin 100, Fin 100) |} ] |};
                  call_type := "image/jpeg";
                  call_quality := Fin 1 |} ]).
Proof.
  intros host. split; [reflexivity | split; [reflexivity |]].
  destruct (cropImage_single_scaled_encode host Sample.photo Sample.image
              Sample.corner Sample.display eq_refl eq_refl)
    as [Hrun [_ [_ Hwhole]]].
  destruct (Hwhole 100%Z 100%Z eq_refl eq_refl) as [Hw Hh]; [lia | lia |].
  rewrite Hrun, Hw, Hh.
  cbn -[JS.div JS.mul].
  unfold JS.of_N; cbn [Z.of_N].
  rewrite (div_Fin 400 200) by lra.
  cbn [JS.mul].
  repeat f_equal; lra.
Defined.

(** C6 as stated fails for a region that is not a whole number of pixels:
    the 100.7 x 50.2 region is encoded on a 100 x 50 canvas, the size the
    host keeps and the code reads back as the destination. *)
Lemma cropImage_truncates_region :
  rect_width Sample.fractional = Fin 100.7
  /\ rect_height Sample.fractional = Fin 50.2
  /\ exists call,
       cropImage (Sample.constant_host 10) Sample.photo
         Sample.fractional Sample.display
       = Some (Resolved (new_File (mkBlob 10 []) Sample.photo), [call])
       /\ canvas_width (call_canvas call) = Fin 100
       /\ canvas_height (call_canvas call) = Fin 50
       /\ (exists src,
             canvas_drawn (call_canvas call)
             = [mkDraw Sample.image (Some src) (Fin 0, Fin 0, Fin 100, Fin 50)])
       /\ canvas_width (call_canvas call) <> rect_width Sample.fractional
       /\ canvas_height (call_canvas call) <> rect_height Sample.fractional.
Proof.
  split; [reflexivity | split; [reflexivity |]].
  assert (Hw : HTMLCanvas.dimension 300 (Fin 100.7) = Fin 100)
    by (apply (dimension_Fin 300 100); [lia | lra]).
  assert (Hh : HTMLCanvas.dimension 150 (Fin 50.2) = Fin 50)
    by (apply (dimension_Fin 150 50); [lia | lra]).
  eexists. split.
  - unfold cropImage, toBlob, set_width, set_height, drawImage.
    cbn -[JS.div JS.mul JS.of_N]. rewrite Hw, Hh. reflexivity.
  - cbn [call_canvas canvas_width canvas_height canvas_drawn
         Sample.fractional rect_width rect_height].
    repeat split.
    + eexists. reflexivity.
    + intros H. injection H as H. lra.
    + intros H. injection H as H. lra.
Qed.

(** C2, as the code has it: [cropImage] never looks at whether the region
    fits the display.  Whatever the region, the promise is rejected only
    when the image fails to load, when no 2D context is available, or when
    the encoder hands back no blob; otherwise the one encode's blob is the
    result. *)
Theorem cropImage_never_validates_region
    (host : Host) (file : File)
    (cropArea : Rect) (canvasDimensions : Dimensions) :
  (host_load host file = None
   /\ cropImage host file cropArea canvasDimensions
      = Some (Rejected "Failed to load image", []))
  \/ (host_load host file <> None
      /\ host_context host = false
      /\ cropImage host file cropArea canvasDimensions
         = Some (Rejected "Could not get canvas context", []))
  \/ (exists call,
        host_toBlob host call = None
        /\ cropImage host file cropArea canvasDimensions
           = Some (Rejected "Failed to create blob", [call]))
  \/ (exists call blob,
        host_toBlob host call = Some blob
        /\ cropImage host file cropArea canvasDimensions
           = Some (Resolved (new_File blob file), [call])).
Proof.
  unfold cropImage.
  destruct (host_load host file) as [img |] eqn:Hload; [| now left].
  right.
  destruct (host_context host) eqn:Hctx; cbn [negb].
  - right. unfold toBlob.
    match goal with
    | |- context [host_toBlob host ?c] =>
        destruct (host_toBlob host c) as [blob |] eqn:Hblob
    end.
    + right. eexists _, blob. split; [exact Hblob | reflexivity].
    + left. eexists. split; [exact Hblob | reflexivity].
  - left. repeat split; congruence.
Qed.

(** C2 as stated fails: a region hanging over the right edge of the display
    ([x + width = 250 > 200]) is cropped and encoded all the same. *)
Lemma cropImage_accepts_overhanging_region :
  rect_x Sample.overhanging = Fin 150
  /\ rect_width Sample.overhanging = Fin 100
  /\ dim_width Sample.display = Fin 200
  /\ 150 + 100 > 200
  /\ exists calls,
       cropImage (Sample.constant_host 10) Sample.photo
         Sample.overhanging Sample.display
       = Some (Resolved (new_File (mkBlob 10 []) Sample.photo), calls).
Proof.
  repeat (split; [reflexivity || lra |]).
  eexists.
  unfold cropImage, toBlob. cbn -[JS.div JS.mul JS.of_N]. reflexivity.
Qed.

(** ** Size targeting: the loop always settles *)

Section CompressStep.

Variable host : Host.
Variable file : File.
Variable img : Image.
Variable targetSize : num.
Variable maxIterations : Z.

(** With more fuel than iterations left, the closure settles. *)
Lemma compressStep_settles (fuel : nat) :
  forall st,
    (Z.to_nat (maxIterations - currentIteration st) < fuel)%nat ->
    exists run,
      compressStep host file img targetSize maxIterations fuel st = Some run.
Proof.
  induction fuel as [| fuel IH]; intros st Hfuel; [lia |].
  cbn [compressStep].
  destruct (currentIteration st >=? maxIterations)%Z eqn:Hend.
  - destruct (bestMatchFile st); [eauto |].
    unfold toBlob. destruct (host_toBlob host _); cbn; eauto.
  - destruct (adjust targetSize _ _ _ _) as [[w h] q].
    unfold toBlob. destruct (host_toBlob host _) as [blob |]; [| eauto].
    destruct (within_tolerance targetSize _); [cbn; eauto |].
    match goal with
    | |- context [compressStep _ _ _ _ _ fuel ?st'] =>
        destruct (IH st') as [run Hrun]
    end.
    + cbn [currentIteration]. rewrite Z.geb_leb in Hend.
      apply Z.leb_gt in Hend. lia.
    + rewrite Hrun. cbn. eauto.
Qed.

(** *** Quality stays between 0.5 and 1 *)

Lemma quality_in_range_start : quality_in_range (Fin 0.9).
Proof. exists 0.9; split; [reflexivity | lra]. Qed.

Lemma quality_in_range_max : quality_in_range (Fin 1.0).
Proof. exists 1.0; split; [reflexivity | lra]. Qed.

(** The undershoot branch: [Math.min(quality * 1.05, 1.0)]. *)
Lemma quality_undershoot (q : num) :
  quality_in_range q ->
  quality_in_range (JS.min (JS.mul q (Fin 1.05)) (Fin 1.0)).
Proof.
  intros (r & -> & Hr). cbn.
  rdec; eexists; (split; [reflexivity | lra]).
Qed.

(** The close-to-target branch:
    [Math.max(quality * (0.95 + (ratio - 1) * 0.1), 0.5)] for a ratio
    between 0 and 1. *)
Lemma quality_fine_tune (q : num) (ratio : R) :
  0 <= ratio <= 1 ->
  quality_in_range q ->
  quality_in_range
    (JS.max (JS.mul q (JS.add (Fin 0.95)
                         (JS.mul (JS.sub (Fin ratio) (Fin 1)) (Fin 0.1))))
            (Fin 0.5)).
Proof.
  intros Hratio (r & -> & Hr). cbn.
  assert (r * (0.95 + (ratio + - 1) * 0.1) <= 1) by nra.
  rdec; eexists; (split; [reflexivity | lra]).
Qed.

(** When the close-to-target branch is taken the target is positive and
    the ratio lies between 0 and 1. *)
Lemma close_branch_ratio (t c : R) :
  0 < c - t -> c - t <= t * 0.5 ->
  0 < c /\ 0 <= t / c /\ 0 <= sqrt (t / c) <= 1.
Proof.
  intros Hover Hclose.
  assert (Ht : 0 < t) by lra.
  assert (Hc : 0 < c) by lra.
  assert (Hq : 0 <= t / c <= 1).
  { split.
    - apply Rlt_le, Rdiv_lt_0_compat; lra.
    - apply Rmult_le_reg_r with c; [lra |].
      unfold Rdiv. rewrite Rmult_assoc, Rinv_l by lra. lra. }
  repeat split; try lra.
  - apply sqrt_pos.
  - rewrite <- sqrt_1. apply sqrt_le_1_alt. lra.
Qed.

Lemma adjust_quality (w h q : num) (n : N) :
  quality_in_range q ->
  quality_in_range (snd (adjust targetSize w h q (JS.of_N n))).
Proof.
  intros Hq. unfold adjust, JS.of_N.
  set (c := IZR (Z.of_N n)).
  destruct targetSize as [| | | t].
  - change (JS.gt (JS.sub (Fin c) NaN) (Fin 0)) with false.
    now apply quality_undershoot.
  - change (JS.gt (JS.sub (Fin c) PInf) (Fin 0)) with false.
    now apply quality_undershoot.
  - change (JS.gt (JS.sub (Fin c) NInf) (Fin 0)) with true.
    change (JS.sub (Fin c) NInf) with PInf.
    change (JS.mul NInf (Fin 0.5)) with (JS.scale_inf false 0.5).
    unfold JS.scale_inf. rewrite (Rltb_true 0 0.5) by lra. exact Hq.
  - change (JS.sub (Fin c) (Fin t)) with (Fin (c + - t)).
    change (JS.mul (Fin t) (Fin 0.5)) with (Fin (t * 0.5)).
    change (JS.gt (Fin (c + - t)) (Fin 0)) with (JS.Rltb 0 (c + - t)).
    change (JS.gt (Fin (c + - t)) (Fin (t * 0.5)))
      with (JS.Rltb (t * 0.5) (c + - t)).
    destruct (Rlt_dec 0 (c + - t)) as [Hover | Hunder].
    + rewrite (Rltb_true 0) by assumption.
      destruct (Rlt_dec (t * 0.5) (c + - t)) as [Hfar | Hclose].
      * rewrite Rltb_true by assumption. exact Hq.
      * rewrite Rltb_false by lra.
        destruct (close_branch_ratio t c) as (Hc & Hdiv & Hsqrt); try lra.
        rewrite div_Fin, sqrt_Fin by assumption.
        now apply quality_fine_tune.
    + rewrite Rltb_false by lra. now apply quality_undershoot.
Qed.

(** Every encode call of the loop is made at a quality in range. *)
Lemma compressStep_quality (fuel : nat) :
  forall st run n,
    quality_in_range (quality st) ->
    currentSize st = JS.of_N n ->
    compressStep host file img targetSize maxIterations fuel st = Some run ->
    Forall (fun c => quality_in_range (call_quality c)) (snd run).
Proof.
  induction fuel as [| fuel IH]; intros st run n Hq Hcur Hrun; [discriminate |].
  cbn [compressStep] in Hrun.
  destruct (currentIteration st >=? maxIterations)%Z.
  - destruct (bestMatchFile st).
    + injection Hrun as <-. constructor.
    + unfold toBlob in Hrun.
      destruct (host_toBlob host _); injection Hrun as <-;
        repeat constructor; exact Hq.
  - pose proof (adjust_quality (width st) (height st) (quality st) n Hq) as Hq'.
    rewrite <- Hcur in Hq'.
    destruct (adjust targetSize _ _ _ _) as [[w h] q]. cbn [snd] in Hq'.
    unfold toBlob in Hrun.
    destruct (host_toBlob host _) as [blob |].
    + destruct (within_tolerance targetSize _).
      * injection Hrun as <-. repeat constructor; exact Hq'.
      * match type of Hrun with
        | option_map _ ?r = _ => destruct r as [run' |] eqn:Hrun'
        end; [| discriminate].
        injection Hrun as <-. constructor; [exact Hq' |].
        eapply IH with (n := blob_size blob); [| | exact Hrun'];
          [exact Hq' | reflexivity].
    + injection Hrun as <-. repeat constructor; exact Hq'.
Qed.

End CompressStep.

(** C7: whatever the host, the file, the target and the iteration bound,
    [resizeImageToSize] settles, and every encode call it makes, in the
    loop of the shrink regime as in the single shot of the growth regime,
    is made at a finite quality between 0.5 and 1.0. *)
Theorem resizeImageToSize_quality_in_range
    (host : Host) (file : File) (targetSize : num)
    (maxIterations : option Z) :
  exists run,
    resizeImageToSize host file targetSize maxIterations = Some run
    /\ Forall (fun c => quality_in_range (call_quality c)) (snd run).
Proof.
  unfold resizeImageToSize.
  destruct (host_load host file) as [img |];
    [| eexists; split; [reflexivity | constructor]].
  set (m := match maxIterations with Some m => m | None => 20%Z end).
  unfold onload.
  destruct (JS.le (JS.of_N (file_size file)) targetSize).
  - destruct (host_context host); cbn [negb];
      [| eexists; split; [reflexivity | constructor]].
    unfold toBlob. destruct (host_toBlob host _);
      (eexists; split; [reflexivity |]);
      repeat constructor; apply quality_in_range_max.
  - destruct (host_context host); cbn [negb];
      [| eexists; split; [reflexivity | constructor]].
    match goal with
    | |- context [compressStep _ _ _ _ _ ?fuel ?st] =>
        destruct (compressStep_settles host file img targetSize m fuel st)
          as [run Hrun]
    end.
    + cbn [currentIteration]. lia.
    + exists run. split; [exact Hrun |].
      eapply compressStep_quality with (n := file_size file);
        [| | exact Hrun]; [apply quality_in_range_start | reflexivity].
Qed.

(** ** Size targeting: the growth regime *)

(** C5: when the file is not larger than the target (and the image loads
    and a 2D context is available), [resizeImageToSize] scales both
    dimensions by [sqrt(targetSize / file.size)], rounded up, encodes once at
    quality 1.0 and settles with that encode: the log holds exactly one
    call and the loop is never entered.  The canvas encoded has the two
    dimensions as the host holds them once assigned. *)
Theorem resizeImageToSize_growth_single_shot
    (host : Host) (file : File) (img : Image) (targetSize : num)
    (maxIterations : option Z) :
  host_load host file = Some img ->
  host_context host = true ->
  JS.le (JS.of_N (file_size file)) targetSize = true ->
  let scale := JS.sqrt (JS.div targetSize (JS.of_N (file_size file))) in
  let w := JS.ceil (JS.mul (JS.of_N (img_width img)) scale) in
  let h := JS.ceil (JS.mul (JS.of_N (img_height img)) scale) in
  let call :=
    {| call_canvas :=
         {| canvas_width := HTMLCanvas.dimension 300 w;
            canvas_height := HTMLCanvas.dimension 150 h;
            canvas_drawn :=
              [ {| draw_img := img;
                   draw_src := None;
                   draw_dst := (Fin 0, Fin 0, w, h) |} ] |};
       call_type := file_type file;
       call_quality := Fin 1.0 |} in
  resizeImageToSize host file targetSize maxIterations
  = Some (match host_toBlob host call with
          | Some blob => Resolved (new_File blob file)
          | None => Rejected "Failed to create blob"
          end, [call]).
Proof.
  intros Hload Hctx Hle scale w h call.
  unfold resizeImageToSize. rewrite Hload.
  unfold onload. rewrite Hle, Hctx. cbn [negb].
  fold scale. fold w. fold h.
  unfold toBlob, set_height, set_width, drawImage, createCanvas.
  cbn [canvas_width canvas_height canvas_drawn app]. fold call.
  destruct (host_toBlob host call); reflexivity.
Qed.

(** The example of the specification: a 100,000-byte file and a target of
    400,000 bytes double each axis (400 x 400 becomes 800 x 800) and make
    one encode call at quality 1. *)
Lemma resizeImageToSize_growth_single_shot_witness :
  let host := Sample.constant_host 10 in
  host_load host Sample.small_photo = Some Sample.image
  /\ host_context host = true
  /\ JS.le (JS.of_N (file_size Sample.small_photo)) (Fin 400000) = true
  /\ resizeImageToSize host Sample.small_photo (Fin 400000) None
     = Some (Resolved (new_File (mkBlob 10 []) Sample.small_photo),
             [ {| call_canvas :=
                    {| canvas_width := Fin 800;
                       canvas_height := Fin 800;
                       canvas_drawn :=
                         [ {| draw_img := Sample.image;
                              draw_src := None;
                              draw_dst :=
                                (Fin 0, Fin 0, Fin 800, Fin 800) |} ] |};
                  call_type := "image/jpeg";
                  call_quality := Fin 1 |} ]).
Proof.
  intros host.
  assert (Hle : JS.le (JS.of_N (file_size Sample.small_photo)) (Fin 400000)
                = true).
  { unfold JS.of_N. cbn [file_size Sample.small_photo Z.of_N].
    apply le_Fin. lra. }
  split; [reflexivity | split; [reflexivity | split; [exact Hle |]]].
  rewrite (resizeImageToSize_growth_single_shot host Sample.small_photo
             Sample.image (Fin 400000) None eq_refl eq_refl Hle).
  unfold JS.of_N.
  cbn [file_size file_type Sample.small_photo Sample.image img_width
       img_height Z.of_N host host_toBlob Sample.constant_host].
  rewrite (div_Fin 400000 100000) by lra.
  replace (400000 / 100000) with (2 * 2) by lra.
  rewrite sqrt_Fin by lra. rewrite sqrt_square by lra.
  cbn [JS.mul]. rewrite (ceil_Fin (400 * 2) 800) by lra.
  rewrite !dimension_whole by lia.
  repeat f_equal; lra.
Defined.

(** ** Size targeting: one iteration of the shrink regime *)

Section Iteration.

Variable host : Host.
Variable file : File.
Variable img : Image.
Variable t : R.
Variable maxIterations : Z.

(** The three branches of the parameter update, for a finite target and a
    finite current size. *)
Lemma adjust_far (w h q : num) (c : R) :
  t * 0.5 < c - t -> 0 < c - t ->
  adjust (Fin t) w h q (Fin c)
  = (JS.floor (JS.mul w (JS.max (JS.sqrt (JS.div (Fin t) (Fin c))) (Fin 0.7))),
     JS.floor (JS.mul h (JS.max (JS.sqrt (JS.div (Fin t) (Fin c))) (Fin 0.7))),
     q).
Proof.
  intros Hfar Hover. unfold adjust.
  change (JS.sub (Fin c) (Fin t)) with (Fin (c + - t)).
  change (JS.mul (Fin t) (Fin 0.5)) with (Fin (t * 0.5)).
  unfold JS.gt. rewrite !lt_Fin by lra. reflexivity.
Qed.

Lemma adjust_close (w h q : num) (c : R) :
  0 < c - t -> c - t <= t * 0.5 ->
  adjust (Fin t) w h q (Fin c)
  = (w, h,
     JS.max (JS.mul q (JS.add (Fin 0.95)
                         (JS.mul (JS.sub (JS.sqrt (JS.div (Fin t) (Fin c)))
                                    (Fin 1)) (Fin 0.1))))
            (Fin 0.5)).
Proof.
  intros Hover Hclose. unfold adjust.
  change (JS.sub (Fin c) (Fin t)) with (Fin (c + - t)).
  change (JS.mul (Fin t) (Fin 0.5)) with (Fin (t * 0.5)).
  unfold JS.gt. rewrite lt_Fin by lra. rewrite lt_Fin_false by lra.
  reflexivity.
Qed.

Lemma adjust_undershoot (w h q : num) (c : R) :
  c <= t ->
  adjust (Fin t) w h q (Fin c)
  = (JS.floor (JS.div w (JS.min (JS.sqrt (JS.div (Fin t) (Fin c))) (Fin 1.2))),
     JS.floor (JS.div h (JS.min (JS.sqrt (JS.div (Fin t) (Fin c))) (Fin 1.2))),
     JS.min (JS.mul q (Fin 1.05)) (Fin 1.0)).
Proof.
  intros Hunder. unfold adjust.
  change (JS.sub (Fin c) (Fin t)) with (Fin (c + - t)).
  unfold JS.gt. rewrite lt_Fin_false by lra. reflexivity.
Qed.

(** The convergence test of the code is the 5% band around the target. *)
Lemma within_tolerance_converged (b : Blob) :
  within_tolerance (Fin t) (JS.of_N (blob_size b)) = true <-> converged t b.
Proof.
  unfold within_tolerance, converged, distance, JS.of_N, JS.ge.
  cbn [JS.mul JS.add JS.sub JS.neg JS.le].
  set (s := IZR (Z.of_N (blob_size b))).
  rewrite andb_true_iff. unfold JS.Rleb.
  split.
  - intros [H1 H2].
    destruct (Rle_dec s (t + t * 0.05)); [| discriminate].
    destruct (Rle_dec (t + - (t * 0.05)) s); [| discriminate].
    apply Rabs_le. lra.
  - intros H. unfold Rabs in H. destruct (Rcase_abs (s - t)).
    all: destruct (Rle_dec s (t + t * 0.05)); [| lra].
    all: destruct (Rle_dec (t + - (t * 0.05)) s); [| lra].
    all: now split.
Qed.

Lemma within_tolerance_not_converged (b : Blob) :
  within_tolerance (Fin t) (JS.of_N (blob_size b)) = false <-> ~ converged t b.
Proof.
  rewrite <- within_tolerance_converged.
  destruct (within_tolerance _ _); split; congruence.
Qed.

(** The distance the code computes is [distance]. *)
Lemma abs_sub_distance (b : Blob) :
  JS.abs (JS.sub (JS.of_N (blob_size b)) (Fin t)) = Fin (distance t b).
Proof. reflexivity. Qed.

(** One full iteration that does not converge: the parameters are
    adjusted, the canvas is redrawn and encoded, the best match is updated
    and the closure calls itself. *)
Lemma compressStep_iterate (fuel : nat) (st : SearchState)
    (w h q : num) (blob : Blob) :
  (currentIteration st < maxIterations)%Z ->
  adjust (Fin t) (width st) (height st) (quality st) (currentSize st)
  = (w, h, q) ->
  let cv :=
    {| canvas_width := HTMLCanvas.dimension 300 w;
       canvas_height := HTMLCanvas.dimension 150 h;
       canvas_drawn := [mkDraw img None (Fin 0, Fin 0, w, h)] |} in
  let call := mkCall cv (file_type file) q in
  host_toBlob host call = Some blob ->
  ~ converged t blob ->
  let improved := JS.lt (Fin (distance t blob)) (bestMatchDiff st) in
  compressStep host file img (Fin t) maxIterations (S fuel) st
  = option_map (logged call)
      (compressStep host file img (Fin t) maxIterations fuel
         {| width := w; height := h; quality := q;
            currentIteration := currentIteration st + 1;
            currentSize := JS.of_N (blob_size blob);
            bestMatchFile :=
              if improved then Some (new_File blob file)
              else bestMatchFile st;
            bestMatchDiff :=
              if improved then Fin (distance t blob) else bestMatchDiff st;
            canvas := cv |}).
Proof.
  intros Hiter Hadj cv call Hblob Hconv improved.
  cbn [compressStep].
  replace (currentIteration st >=? maxIterations)%Z with false
    by (symmetry; rewrite Z.geb_leb; apply Z.leb_gt; lia).
  rewrite Hadj.
  unfold toBlob, set_height, set_width, drawImage.
  cbn [canvas_width canvas_height canvas_drawn app].
  fold cv. fold call. rewrite Hblob.
  apply within_tolerance_not_converged in Hconv. rewrite Hconv.
  reflexivity.
Qed.

(** An iteration that converges settles with its own encode. *)
Lemma compressStep_converge (fuel : nat) (st : SearchState)
    (w h q : num) (blob : Blob) :
  (currentIteration st < maxIterations)%Z ->
  adjust (Fin t) (width st) (height st) (quality st) (currentSize st)
  = (w, h, q) ->
  let cv :=
    {| canvas_width := HTMLCanvas.dimension 300 w;
       canvas_height := HTMLCanvas.dimension 150 h;
       canvas_drawn := [mkDraw img None (Fin 0, Fin 0, w, h)] |} in
  let call := mkCall cv (file_type file) q in
  host_toBlob host call = Some blob ->
  converged t blob ->
  compressStep host file img (Fin t) maxIterations (S fuel) st
  = Some (Resolved (new_File blob file), [call]).
Proof.
  intros Hiter Hadj cv call Hblob Hconv.
  cbn [compressStep].
  replace (currentIteration st >=? maxIterations)%Z with false
    by (symmetry; rewrite Z.geb_leb; apply Z.leb_gt; lia).
  rewrite Hadj.
  unfold toBlob, set_height, set_width, drawImage.
  cbn [canvas_width canvas_height canvas_drawn app].
  fold cv. fold call. rewrite Hblob.
  apply within_tolerance_converged in Hconv. rewrite Hconv.
  reflexivity.
Qed.

(** Out of iterations: the best match if there is one, else an encode of
    the canvas as it stands. *)
Lemma compressStep_exhausted (fuel : nat) (st : SearchState) :
  (maxIterations <= currentIteration st)%Z ->
  compressStep host file img (Fin t) maxIterations (S fuel) st
  = match bestMatchFile st with
    | Some best => Some (Resolved best, [])
    | None =>
        let call := mkCall (canvas st) (file_type file) (quality st) in
        Some (match host_toBlob host call with
              | Some blob => Resolved (new_File blob file)
              | None => Rejected "Failed to create blob"
              end, [call])
    end.
Proof.
  intros Hiter. cbn [compressStep].
  replace (currentIteration st >=? maxIterations)%Z with true
    by (symmetry; rewrite Z.geb_leb; apply Z.leb_le; lia).
  destruct (bestMatchFile st); [reflexivity |].
  unfold toBlob. destruct (host_toBlob host _); reflexivity.
Qed.

End Iteration.

Lemma max_Fin_l (x y : R) : y <= x -> JS.max (Fin x) (Fin y) = Fin x.
Proof. intros H; unfold JS.max; now rewrite lt_Fin_false. Qed.

Lemma max_Fin_r (x y : R) : x < y -> JS.max (Fin x) (Fin y) = Fin y.
Proof. intros H; unfold JS.max; now rewrite lt_Fin. Qed.

Lemma min_Fin_l (x y : R) : x <= y -> JS.min (Fin x) (Fin y) = Fin x.
Proof. intros H; unfold JS.min; now rewrite lt_Fin_false. Qed.

Lemma min_Fin_r (x y : R) : y < x -> JS.min (Fin x) (Fin y) = Fin y.
Proof. intros H; unfold JS.min; now rewrite lt_Fin. Qed.

(** ** Size targeting: the undershoot branch divides by a ratio of 1 or more *)

(** In the undershoot branch ([currentSize <= targetSize]) the divisor
    [Math.min(ratio, 1.2)] lies between 1 and 1.2. *)
Lemma undershoot_divisor (t c : R) :
  0 < t -> 0 <= c <= t ->
  exists d,
    JS.min (JS.sqrt (JS.div (Fin t) (Fin c))) (Fin 1.2) = Fin d
    /\ 1 <= d <= 1.2.
Proof.
  intros Ht [Hc Hct].
  destruct (Rlt_dec 0 c) as [Hpos | Hzero].
  - rewrite div_Fin by assumption.
    assert (Hq : 1 <= t / c).
    { apply Rmult_le_reg_r with c; [assumption |].
      unfold Rdiv. rewrite Rmult_assoc, Rinv_l by lra. lra. }
    rewrite sqrt_Fin by lra.
    assert (Hs : 1 <= sqrt (t / c)).
    { rewrite <- sqrt_1. apply sqrt_le_1_alt. exact Hq. }
    destruct (Rle_dec (sqrt (t / c)) 1.2).
    + rewrite min_Fin_l by assumption. eexists; split; [reflexivity | lra].
    + rewrite min_Fin_r by lra. eexists; split; [reflexivity | lra].
  - assert (c = 0) by lra; subst c.
    unfold JS.div. rewrite !(Rltb_false _ 0) by lra.
    unfold JS.scale_inf. rewrite (Rltb_true 0 t) by assumption.
    unfold JS.sqrt, JS.min, JS.lt.
    eexists; split; [reflexivity | lra].
Qed.

(** Hence a non-negative dimension never grows in that branch: the new
    value is [floor(w / d)] with [1 <= d <= 1.2]. *)
Lemma undershoot_never_grows (t c w : R) :
  0 < t -> 0 <= c <= t -> 0 <= w ->
  exists w',
    JS.floor (JS.div (Fin w)
                (JS.min (JS.sqrt (JS.div (Fin t) (Fin c))) (Fin 1.2)))
    = Fin w'
    /\ w / 1.2 - 1 < w' <= w.
Proof.
  intros Ht Hc Hw.
  destruct (undershoot_divisor t c Ht Hc) as (d & -> & Hd).
  rewrite div_Fin by lra. cbn [JS.floor].
  eexists; split; [reflexivity |].
  pose proof (Zfloor_bound (w / d)) as [Hlo Hhi].
  assert (Hwd : w / 1.2 <= w / d <= w).
  { unfold Rdiv. split.
    - apply Rmult_le_compat_l; [assumption |].
      apply Rinv_le_contravar; lra.
    - rewrite <- (Rmult_1_r w) at 2.
      apply Rmult_le_compat_l; [assumption |].
      rewrite <- Rinv_1. apply Rinv_le_contravar; lra. }
  lra.
Qed.

(** ** Size targeting: a run through the undershoot branch *)

Lemma sample_first_adjust :
  adjust (Fin 400) (Fin 400) (Fin 400) (Fin 0.9) (Fin 1000)
  = (Fin 280, Fin 280, Fin 0.9).
Proof.
  rewrite adjust_far by lra.
  rewrite div_Fin, sqrt_Fin by lra.
  assert (Hs : sqrt (400 / 1000) < 0.7).
  { replace 0.7 with (sqrt (0.7 * 0.7)) by (apply sqrt_square; lra).
    apply sqrt_lt_1_alt. lra. }
  rewrite max_Fin_r by exact Hs.
  cbn [JS.mul]. rewrite (floor_Fin (400 * 0.7) 280) by lra.
  reflexivity.
Qed.

Lemma sample_second_adjust :
  adjust (Fin 400) (Fin 280) (Fin 280) (Fin 0.9) (Fin 100)
  = (Fin 233, Fin 233, Fin 0.945).
Proof.
  rewrite adjust_undershoot by lra.
  rewrite div_Fin by lra.
  replace (400 / 100) with (2 * 2) by lra.
  rewrite sqrt_Fin by lra. rewrite sqrt_square by lra.
  rewrite min_Fin_r by lra.
  rewrite div_Fin by lra. rewrite (floor_Fin (280 / 1.2) 233) by lra.
  cbn [JS.mul]. rewrite min_Fin_l by lra.
  repeat f_equal; lra.
Qed.

(** C1, on the code: a 1000-byte photo of 400 x 400 pixels, a target of 400
    bytes and an encoder that yields 100 bytes.  The first iteration shrinks
    to 280 x 280; the second one sees 100 <= 400, takes the undershoot branch
    and divides by [min(2, 1.2) = 1.2]: the canvas becomes 233 x 233,
    smaller than before, while the quality goes from 0.9 to
    [min(0.9 * 1.05, 1) = 0.945]. *)
Theorem undershoot_branch_shrinks_dimensions :
  resizeImageToSize (Sample.constant_host 100) Sample.photo (Fin 400) (Some 2%Z)
  = Some (Resolved (new_File (mkBlob 100 []) Sample.photo),
          [Sample.square_call 280 0.9; Sample.square_call 233 0.945]).
Proof.
  unfold resizeImageToSize, onload, JS.of_N.
  cbn [host_load host_context Sample.constant_host negb file_size
       Sample.photo img_width img_height Sample.image Z.of_N Z.to_nat
       Pos.to_nat Pos.iter_op Nat.add].
  rewrite le_Fin_false by lra.
  rewrite (compressStep_iterate _ _ _ _ _ 2 _ (Fin 280) (Fin 280) (Fin 0.9)
             (mkBlob 100 []));
    [ | cbn; lia | exact sample_first_adjust | reflexivity
      | unfold converged, distance; cbn [blob_size Z.of_N];
        rewrite Rabs_left by lra; lra ].
  cbn [bestMatchDiff bestMatchFile currentIteration JS.lt].
  rewrite (compressStep_iterate _ _ _ _ _ 1 _ (Fin 233) (Fin 233) (Fin 0.945)
             (mkBlob 100 []));
    [ | cbn; lia | exact sample_second_adjust | reflexivity
      | unfold converged, distance; cbn [blob_size Z.of_N];
        rewrite Rabs_left by lra; lra ].
  cbn [bestMatchDiff bestMatchFile currentIteration].
  rewrite lt_Fin_false by lra.
  rewrite compressStep_exhausted by (cbn; lia).
  rewrite !dimension_whole by lia.
  reflexivity.
Qed.

(** ** Size targeting: where the target is validated *)

(** [resizeImageToSize] settles for every input. *)
Lemma resizeImageToSize_settles
    (host : Host) (file : File) (targetSize : num)
    (maxIterations : option Z) :
  exists run, resizeImageToSize host file targetSize maxIterations = Some run.
Proof.
  unfold resizeImageToSize.
  destruct (host_load host file) as [img |]; [| eauto].
  unfold onload.
  destruct (JS.le _ targetSize); destruct (host_context host); cbn [negb];
    eauto.
  - unfold toBlob. destruct (host_toBlob host _); cbn; eauto.
  - apply compressStep_settles. cbn [currentIteration]. lia.
Qed.

Lemma mul_1024_not_NaN (v : num) :
  v <> NaN -> JS.mul v (Fin 1024) <> NaN.
Proof.
  destruct v; cbn [JS.mul]; unfold JS.scale_inf;
    rewrite ?(Rltb_true 0 1024) by lra; congruence.
Qed.

(** [parseFileSize] never yields [NaN]. *)
Lemma parseFileSize_not_NaN (sizeStr : string) :
  parseFileSize sizeStr <> NaN.
Proof.
  unfold parseFileSize.
  destruct (JS.isNaN (Str.parseFloat sizeStr)) eqn:Hnan; [discriminate |].
  assert (Hv : Str.parseFloat sizeStr <> NaN)
    by (intros E; rewrite E in Hnan; discriminate).
  repeat match goal with
    | |- context [if ?b then _ else _] => destruct b
    end;
    auto using mul_1024_not_NaN.
Qed.

(** A number that is neither [NaN] nor at most 0 is greater than 0. *)
Lemma not_le_zero_positive (v : num) :
  v <> NaN -> JS.le v (Fin 0) = false -> JS.lt (Fin 0) v = true.
Proof.
  destruct v as [| | | r]; cbn; try congruence.
  intros _ H. rdec.
Qed.

(** C3, as the code has it: the check of the target is in the caller.
    [resizeImage] parses the size and, when it is at most 0, reports an
    invalid size without calling [resizeImageToSize] (no encode is made);
    otherwise the target is greater than 0 and the report is built from what
    [resizeImageToSize] settles with. *)
Theorem resizeImage_guards_target
    (host : Host) (original : File) (targetSizeStr : string) :
  let target := parseFileSize targetSizeStr in
  (JS.le target (Fin 0) = true
   /\ resizeImage host (Some original) targetSizeStr = Some (InvalidSize, []))
  \/ (JS.lt (Fin 0) target = true
      /\ exists outcome calls report,
           resizeImageToSize host original target None
           = Some (outcome, calls)
           /\ resizeImage host (Some original) targetSizeStr
              = Some (report, calls)
           /\ ((exists message,
                  outcome = Rejected message /\ report = ResizeFailed)
               \/ (exists f warned,
                     outcome = Resolved f /\ report = Resized f warned))).
Proof.
  intros target. unfold resizeImage. fold target.
  destruct (JS.le target (Fin 0)) eqn:Hle; [left; now split | right].
  split.
  - apply not_le_zero_positive; [apply parseFileSize_not_NaN | exact Hle].
  - destruct (resizeImageToSize_settles host original target None)
      as [[outcome calls] Hrun].
    rewrite Hrun.
    destruct outcome as [f | message].
    + eexists _, calls, _. split; [reflexivity | split; [reflexivity |]].
      right. eauto.
    + eexists _, calls, _. split; [reflexivity | split; [reflexivity |]].
      left. eauto.
Qed.

(** C3 as stated fails: called with a target of 0 bytes,
    [resizeImageToSize] itself runs its loop and resolves with a file. *)
Lemma resizeImageToSize_accepts_zero_target :
  JS.le (Fin 0) (Fin 0) = true
  /\ resizeImageToSize (Sample.constant_host 7) Sample.photo (Fin 0)
       (Some 1%Z)
     = Some (Resolved (new_File (mkBlob 7 []) Sample.photo),
             [Sample.square_call 280 0.9]).
Proof.
  split; [apply le_Fin; lra |].
  unfold resizeImageToSize, onload, JS.of_N.
  cbn [host_load host_context Sample.constant_host negb file_size
       Sample.photo img_width img_height Sample.image Z.of_N Z.to_nat
       Pos.to_nat Pos.iter_op Nat.add].
  rewrite le_Fin_false by lra.
  rewrite (compressStep_iterate _ _ _ _ _ 1 _ (Fin 280) (Fin 280) (Fin 0.9)
             (mkBlob 7 []));
    [ | cbn; lia | | reflexivity
      | unfold converged, distance; cbn [blob_size Z.of_N];
        rewrite Rabs_right by lra; lra ].
  - cbn [bestMatchDiff bestMatchFile currentIteration JS.lt].
    rewrite compressStep_exhausted by (cbn; lia).
    rewrite !dimension_whole by lia.
    reflexivity.
  - cbn [width height quality currentSize].
    rewrite adjust_far by lra.
    rewrite div_Fin by lra.
    replace (0 / 1000) with 0 by lra.
    rewrite sqrt_Fin by lra. rewrite sqrt_0.
    rewrite max_Fin_r by lra.
    cbn [JS.mul]. rewrite (floor_Fin (400 * 0.7) 280) by lra.
    reflexivity.
Qed.

(** ** Size targeting: the shrink regime is bounded and best-effort *)

Section BestEffort.

Variable host : Host.
Variable file : File.
Variable img : Image.
Variable t : R.
Variable m : Z.

(** The encoder never fails. *)
Variable encode : EncodeCall -> Blob.
Hypothesis encode_total : forall c, host_toBlob host c = Some (encode c).

(** Recording one more call that did not converge keeps [tracks_best]. *)
Lemma tracks_best_step (prev : list EncodeCall) (st : SearchState)
    (call : EncodeCall) (w h q : num) (it : Z) (cv : Canvas) :
  tracks_best encode file t prev st ->
  let improved :=
    JS.lt (Fin (distance t (encode call))) (bestMatchDiff st) in
  tracks_best encode file t (prev ++ [call])
    {| width := w; height := h; quality := q;
       currentIteration := it;
       currentSize := JS.of_N (blob_size (encode call));
       bestMatchFile :=
         if improved then Some (new_File (encode call) file)
         else bestMatchFile st;
       bestMatchDiff :=
         if improved then Fin (distance t (encode call))
         else bestMatchDiff st;
       canvas := cv |}.
Proof.
  intros [(-> & Hfile & Hdiff) | (pre & best & post & -> & Hfile & Hdiff & Hpre & Hpost)]
    improved; subst improved; right; rewrite Hdiff.
  - exists [], call, []. cbn. repeat split; constructor.
  - destruct (Rlt_dec (distance t (encode call)) (distance t (encode best)))
      as [Hbetter | Hworse].
    + rewrite lt_Fin by assumption.
      exists (pre ++ best :: post), call, []. cbn.
      repeat split; [| constructor].
      apply Forall_app; split; [| constructor].
      * eapply Forall_impl; [| exact Hpre]. cbn; intros; lra.
      * assumption.
      * eapply Forall_impl; [| exact Hpost]. cbn; intros; lra.
    + rewrite lt_Fin_false by lra.
      exists pre, best, (post ++ [call]). cbn.
      rewrite <- app_assoc. repeat split; try assumption.
      apply Forall_app; split; [assumption |].
      constructor; [lra | constructor].
Qed.

Lemma compressStep_best_effort (fuel : nat) :
  forall st prev,
    currentIteration st = Z.of_nat (List.length prev) ->
    (prev = [] \/ (Z.of_nat (List.length prev) <= m)%Z) ->
    Forall (fun c => ~ converged t (encode c)) prev ->
    tracks_best encode file t prev st ->
    (Z.to_nat (m - currentIteration st) < fuel)%nat ->
    exists calls best,
      compressStep host file img (Fin t) m fuel st
      = Some (Resolved (new_File (encode best) file), calls)
      /\ best_effort encode t m
           (mkCall (canvas st) (file_type file) (quality st))
           (prev ++ calls) best.
Proof.
  induction fuel as [| fuel IH]; intros st prev Hiter Hbound Hprev Hbest Hfuel;
    [lia |].
  destruct (Z_lt_le_dec (currentIteration st) m) as [Hmore | Hdone].
  - destruct (adjust (Fin t) (width st) (height st) (quality st)
                (currentSize st)) as [[w h] q] eqn:Hadj.
    set (cv := {| canvas_width := HTMLCanvas.dimension 300 w;
                  canvas_height := HTMLCanvas.dimension 150 h;
                  canvas_drawn := [mkDraw img None (Fin 0, Fin 0, w, h)] |}).
    set (call := mkCall cv (file_type file) q).
    destruct (within_tolerance (Fin t) (JS.of_N (blob_size (encode call))))
      eqn:Hwithin.
    + apply within_tolerance_converged in Hwithin.
      exists [call], call. split.
      * apply (compressStep_converge host file img t m fuel st w h q);
          auto.
      * left. exists prev. repeat split; auto.
        rewrite length_app. cbn [List.length]. lia.
    + apply within_tolerance_not_converged in Hwithin.
      rewrite (compressStep_iterate host file img t m fuel st w h q
                 (encode call) Hmore Hadj (encode_total _) Hwithin).
      fold cv. fold call.
      match goal with
      | |- context [compressStep _ _ _ _ _ fuel ?st'] =>
          destruct (IH st' (prev ++ [call])) as (calls & best & Hrun & Hend)
      end.
      * cbn [currentIteration]. rewrite length_app. cbn [List.length]. lia.
      * right. rewrite length_app. cbn [List.length]. lia.
      * apply Forall_app. split; [assumption | now constructor].
      * now apply tracks_best_step.
      * cbn [currentIteration]. lia.
      * exists (call :: calls), best. rewrite Hrun. split; [reflexivity |].
        rewrite <- app_assoc in Hend. cbn [app] in Hend.
        destruct Hend as [Hend | [Hend | (Hm & _)]].
        -- now left.
        -- right; now left.
        -- lia.
  - rewrite compressStep_exhausted by assumption.
    destruct Hbest as [(-> & Hfile & Hdiff)
                      | (pre & best & post & -> & Hfile & Hdiff & Hpre & Hpost)];
      rewrite Hfile.
    + cbn zeta. rewrite encode_total.
      eexists [_], _. split; [reflexivity |].
      right; right. cbn in Hiter. repeat split; [lia].
    + exists [], best. split; [reflexivity |].
      rewrite app_nil_r. right; left. exists pre, post.
      repeat split; auto.
      destruct Hbound as [Hnil | Hle]; [now destruct pre |]. lia.
Qed.

End BestEffort.

(** C4: in the shrink regime (a positive target smaller than the file) and
    with an encoder that always yields a blob, [resizeImageToSize] settles
    by resolving, never by rejecting.  It runs at most [maxIterations]
    iterations (20 by default) and returns the blob of a call [best] among
    those it made: the first call whose size is within 5% of the target,
    which is then the last call made; else, after exactly [maxIterations]
    calls, the earliest call at the least distance to the target; else, when
    no iteration is allowed, its one encode of the untouched canvas at
    quality 0.9. *)
Theorem resizeImageToSize_shrink_best_effort
    (host : Host) (file : File) (img : Image) (t : R)
    (maxIterations : option Z) (encode : EncodeCall -> Blob) :
  host_load host file = Some img ->
  host_context host = true ->
  (forall c, host_toBlob host c = Some (encode c)) ->
  0 < t < IZR (Z.of_N (file_size file)) ->
  let m := match maxIterations with Some m => m | None => 20%Z end in
  exists calls best,
    resizeImageToSize host file (Fin t) maxIterations
    = Some (Resolved (new_File (encode best) file), calls)
    /\ best_effort encode t m
         (mkCall createCanvas (file_type file) (Fin 0.9)) calls best.
Proof.
  intros Hload Hctx Hencode Ht m.
  unfold resizeImageToSize. rewrite Hload. fold m.
  unfold onload, JS.of_N. rewrite le_Fin_false by lra.
  rewrite Hctx. cbn [negb].
  match goal with
  | |- context [compressStep _ _ _ _ _ ?fuel ?st] =>
      destruct (compressStep_best_effort host file img t m encode Hencode
                  fuel st [])
        as (calls & best & Hrun & Hend)
  end.
  - reflexivity.
  - now left.
  - constructor.
  - left. repeat split.
  - cbn [currentIteration]. lia.
  - exists calls, best. split; [exact Hrun | exact Hend].
Qed.

(** The run above is an instance: two iterations, none within 5% of 400
    bytes, and the first call (at distance 300, like the second) is the one
    returned. *)
Lemma resizeImageToSize_shrink_best_effort_witness :
  let host := Sample.constant_host 100 in
  let encode := fun _ : EncodeCall => mkBlob 100 [] in
  host_load host Sample.photo = Some Sample.image
  /\ host_context host = true
  /\ (forall c, host_toBlob host c = Some (encode c))
  /\ 0 < 400 < IZR (Z.of_N (file_size Sample.photo))
  /\ exists calls best,
       resizeImageToSize host Sample.photo (Fin 400) (Some 2%Z)
       = Some (Resolved (new_File (encode best) Sample.photo), calls)
       /\ best_effort encode 400 2
            (mkCall createCanvas (file_type Sample.photo) (Fin 0.9))
            calls best.
Proof.
  intros host encode.
  assert (Hsize : 0 < 400 < IZR (Z.of_N (file_size Sample.photo)))
    by (cbn [file_size Sample.photo Z.of_N]; lra).
  split; [reflexivity | split; [reflexivity | split; [reflexivity |]]].
  split; [exact Hsize |].
  exact (resizeImageToSize_shrink_best_effort host Sample.photo Sample.image
           400 (Some 2%Z) encode eq_refl eq_refl (fun c => eq_refl) Hsize).
Defined.

(** ** Parsing file sizes *)

Section Strings.

Local Open Scope string_scope.

Lemma prefix_app (a s : string) :
  String.prefix a s = true <-> exists post, s = a ++ post.
Proof.
  revert s. induction a as [| c a IH]; intros s.
  - split; [intros _; now exists s | intros _; now destruct s].
  - destruct s as [| c' s]; cbn.
    + split; [discriminate | intros [post H]; discriminate].
    + destruct (ascii_dec c c') as [-> | Hne].
      * rewrite IH. split; intros [post H]; exists post.
        -- now rewrite H.
        -- now injection H.
      * split; [discriminate |].
        intros [post H]. injection H as H _. congruence.
Qed.

Lemma includes_occurs (s sub : string) :
  Str.includes s sub = true <-> exists pre post, s = pre ++ sub ++ post.
Proof.
  induction s as [| c s IH]; cbn [Str.includes]; rewrite orb_true_iff.
  - split.
    + intros [H | H]; [| discriminate].
      apply prefix_app in H as [post H]. now exists "", post.
    + intros (pre & post & H). left. apply prefix_app.
      destruct pre; [now exists post | discriminate].
  - rewrite IH, prefix_app. split.
    + intros [[post H] | (pre & post & H)].
      * now exists "", post.
      * exists (String c pre), post. cbn. now rewrite H.
    + intros (pre & post & H). destruct pre as [| c' pre].
      * left. now exists post.
      * right. injection H as _ H. now exists pre, post.
Qed.

Lemma toLowerCase_app (a b : string) :
  Str.toLowerCase (a ++ b) = Str.toLowerCase a ++ Str.toLowerCase b.
Proof. induction a as [| c a IH]; cbn; [reflexivity | now rewrite IH]. Qed.

Lemma toLowerCase_split (s a b : string) :
  Str.toLowerCase s = a ++ b ->
  exists a0 b0,
    s = a0 ++ b0 /\ Str.toLowerCase a0 = a /\ Str.toLowerCase b0 = b.
Proof.
  revert s. induction a as [| c a IH]; intros s H.
  - now exists "", s.
  - destruct s as [| c' s]; [discriminate |].
    cbn in H. injection H as Hc H.
    destruct (IH s H) as (a0 & b0 & -> & Ha & Hb).
    exists (String c' a0), b0. cbn. now rewrite Hc, Ha, Hb.
Qed.

(** The test of the code, [s.toLowerCase().includes(sub)], finds the
    occurrences of [sub] up to letter case. *)
Lemma includes_ignoring_case (s sub : string) :
  Str.includes (Str.toLowerCase s) sub = true
  <-> contains_ignoring_case s sub.
Proof.
  rewrite includes_occurs. unfold contains_ignoring_case. split.
  - intros (pre & post & H).
    apply toLowerCase_split in H as (pre0 & rest & -> & _ & H).
    apply toLowerCase_split in H as (mid0 & post0 & -> & Hmid & _).
    now exists pre0, mid0, post0.
  - intros (pre & mid & post & -> & <-).
    exists (Str.toLowerCase pre), (Str.toLowerCase post).
    now rewrite !toLowerCase_app.
Qed.

End Strings.

(** Multiplying twice by finite positive factors is multiplying by their
    product. *)
Lemma mul_mul_Fin (v : num) (a b : R) :
  0 < a -> 0 < b ->
  JS.mul (JS.mul v (Fin a)) (Fin b) = JS.mul v (Fin (a * b)).
Proof.
  intros Ha Hb.
  assert (Hab : 0 < a * b) by now apply Rmult_lt_0_compat.
  destruct v as [| | | x]; cbn [JS.mul]; unfold JS.scale_inf.
  - reflexivity.
  - rewrite !Rltb_true by assumption. cbn [JS.mul]. unfold JS.scale_inf.
    now rewrite Rltb_true.
  - rewrite !Rltb_true by assumption. cbn [JS.mul]. unfold JS.scale_inf.
    now rewrite Rltb_true.
  - f_equal. ring.
Qed.

(** C9: [parseFileSize] is total.  With [v] the number [parseFloat] reads
    at the start of the string: when [v] is [NaN] the result is 0; otherwise
    it is [v * 1024] if the string contains "kb" in any letter case, else
    [v * 1024^2] if it contains "mb", else [v * 1024^3] if it contains "gb",
    else [v] itself. *)
Theorem parseFileSize_units (sizeStr : string) :
  let v := Str.parseFloat sizeStr in
  let has := contains_ignoring_case sizeStr in
  (v = NaN /\ parseFileSize sizeStr = Fin 0)
  \/ (v <> NaN /\ has "kb"%string
      /\ parseFileSize sizeStr = JS.mul v (Fin 1024))
  \/ (v <> NaN /\ ~ has "kb"%string /\ has "mb"%string
      /\ parseFileSize sizeStr = JS.mul v (Fin (1024 * 1024)))
  \/ (v <> NaN /\ ~ has "kb"%string /\ ~ has "mb"%string
      /\ has "gb"%string
      /\ parseFileSize sizeStr = JS.mul v (Fin (1024 * 1024 * 1024)))
  \/ (v <> NaN /\ ~ has "kb"%string /\ ~ has "mb"%string
      /\ ~ has "gb"%string
      /\ parseFileSize sizeStr = v).
Proof.
  intros v has. unfold parseFileSize. fold v.
  destruct (JS.isNaN v) eqn:Hnan.
  - left. destruct v; try discriminate. now split.
  - right.
    assert (Hv : v <> NaN) by (intros E; rewrite E in Hnan; discriminate).
    assert (Hhas : forall sub,
               Str.includes (Str.toLowerCase sizeStr) sub = false
               -> ~ has sub).
    { intros sub H Hc. apply includes_ignoring_case in Hc. congruence. }
    destruct (Str.includes (Str.toLowerCase sizeStr) "kb") eqn:Hkb.
    { left. apply includes_ignoring_case in Hkb. auto. }
    right.
    destruct (Str.includes (Str.toLowerCase sizeStr) "mb") eqn:Hmb.
    { left. apply includes_ignoring_case in Hmb.
      rewrite mul_mul_Fin by lra. auto. }
    right.
    destruct (Str.includes (Str.toLowerCase sizeStr) "gb") eqn:Hgb.
    { left. apply includes_ignoring_case in Hgb.
      rewrite (mul_mul_Fin v), mul_mul_Fin by lra. auto 6. }
    right. auto 6.
Qed.

(** ** Formatting file sizes *)

Lemma ln_1024_pos : 0 < ln 1024.
Proof. rewrite <- ln_1. apply ln_increasing; lra. Qed.

Lemma ln_monotone (x y : R) : 0 < x -> x <= y -> ln x <= ln y.
Proof.
  intros Hx [Hlt | ->]; [| lra].
  left. now apply ln_increasing.
Qed.

(** Powers of 1024, in the integers and in the reals. *)
Lemma IZR_pow_1024 (i : Z) :
  (0 <= i)%Z -> IZR (1024 ^ i) = 1024 ^ Z.to_nat i.
Proof. intros Hi. rewrite pow_IZR, Z2Nat.id by assumption. reflexivity. Qed.

Lemma ln_pow_1024 (i : Z) :
  (0 <= i)%Z -> ln (IZR (1024 ^ i)) = IZR i * ln 1024.
Proof.
  intros Hi. rewrite IZR_pow_1024 by assumption.
  rewrite ln_pow by lra. rewrite INR_IZR_INZ, Z2Nat.id by assumption.
  reflexivity.
Qed.

Lemma Rpower_1024 (i : Z) :
  (0 <= i)%Z -> Rpower 1024 (IZR i) = IZR (1024 ^ i).
Proof.
  intros Hi. rewrite IZR_pow_1024 by assumption.
  rewrite <- Rpower_pow by lra.
  rewrite INR_IZR_INZ, Z2Nat.id by assumption. reflexivity.
Qed.

(** The unit index brackets the byte count between two powers of 1024. *)
Lemma unit_index_bounds (bytes : Z) :
  (1 <= bytes)%Z ->
  let i := (Z.log2 bytes / 10)%Z in
  (0 <= i /\ 1024 ^ i <= bytes < 1024 ^ (i + 1))%Z.
Proof.
  intros Hb i.
  assert (Hlog : (0 <= Z.log2 bytes)%Z) by apply Z.log2_nonneg.
  assert (Hi : (0 <= i)%Z) by (apply Z.div_pos; lia).
  destruct (Z.log2_spec bytes) as [Hlo Hhi]; [lia |].
  assert (Hle : (10 * i <= Z.log2 bytes)%Z) by (apply Z.mul_div_le; lia).
  assert (Hgt : (Z.log2 bytes < 10 * (i + 1))%Z).
  { pose proof (Z.mul_succ_div_gt (Z.log2 bytes) 10). unfold i. lia. }
  change 1024%Z with (2 ^ 10)%Z.
  rewrite <- !Z.pow_mul_r by lia.
  repeat split; [assumption | |].
  - eapply Z.le_trans; [| exact Hlo]. apply Z.pow_le_mono_r; lia.
  - eapply Z.lt_le_trans; [exact Hhi |]. apply Z.pow_le_mono_r; lia.
Qed.

(** [Math.floor(Math.log(bytes) / Math.log(1024))] on an integer. *)
Lemma floor_log_1024 (bytes : Z) :
  (1 <= bytes)%Z ->
  Zfloor (ln (IZR bytes) / ln 1024) = (Z.log2 bytes / 10)%Z.
Proof.
  intros Hb.
  destruct (unit_index_bounds bytes Hb) as (Hi & Hlo & Hhi).
  set (i := (Z.log2 bytes / 10)%Z) in *.
  pose proof ln_1024_pos as Hk.
  assert (Hpos : 0 < IZR (1024 ^ i))
    by (apply IZR_lt, Z.pow_pos_nonneg; lia).
  assert (H1 : IZR i * ln 1024 <= ln (IZR bytes)).
  { rewrite <- ln_pow_1024 by assumption.
    apply ln_monotone; [assumption | now apply IZR_le]. }
  assert (H2 : ln (IZR bytes) < (IZR i + 1) * ln 1024).
  { replace (IZR i + 1) with (IZR (i + 1)) by (rewrite plus_IZR; reflexivity).
    rewrite <- ln_pow_1024 by lia.
    apply ln_increasing; [apply IZR_lt; lia | now apply IZR_lt]. }
  apply Zfloor_eq. split.
  - apply Rmult_le_reg_r with (ln 1024); [assumption |].
    unfold Rdiv. rewrite Rmult_assoc, Rinv_l by lra. lra.
  - apply Rmult_lt_reg_r with (ln 1024); [assumption |].
    unfold Rdiv. rewrite Rmult_assoc, Rinv_l by lra. lra.
Qed.

(** The floor of a quotient of integers is their integer quotient. *)
Lemma Zfloor_quotient (n d : Z) :
  (0 < d)%Z -> Zfloor (IZR n / IZR d) = (n / d)%Z.
Proof.
  intros Hd.
  assert (HdR : 0 < IZR d) by now apply IZR_lt.
  pose proof (Z.div_mod n d ltac:(lia)) as Hdiv.
  pose proof (Z.mod_pos_bound n d Hd) as [Hr0 Hr1].
  apply IZR_le in Hr0. apply IZR_lt in Hr1.
  assert (Hn : IZR n = IZR d * IZR (n / d) + IZR (n mod d)).
  { rewrite <- mult_IZR, <- plus_IZR. now f_equal. }
  apply Zfloor_eq. split.
  - apply Rmult_le_reg_r with (IZR d); [assumption |].
    unfold Rdiv. rewrite Rmult_assoc, Rinv_l by lra. lra.
  - apply Rmult_lt_reg_r with (IZR d); [assumption |].
    unfold Rdiv. rewrite Rmult_assoc, Rinv_l by lra. lra.
Qed.

(** The integer [toFixed] rounds the scaled value to. *)
Lemma toFixed_rounding (bytes p dm : Z) :
  (0 < p)%Z -> (0 <= dm)%Z ->
  Zfloor (IZR bytes / IZR p * 10 ^ Z.to_nat dm + / 2)
  = ((2 * bytes * 10 ^ dm + p) / (2 * p))%Z.
Proof.
  intros Hp Hdm.
  assert (HpR : 0 < IZR p) by now apply IZR_lt.
  rewrite <- Zfloor_quotient by lia.
  f_equal.
  rewrite plus_IZR, !mult_IZR.
  rewrite <- (Z2Nat.id dm) at 2 by assumption.
  rewrite <- pow_IZR.
  field. lra.
Qed.

(** On a non-negative integer byte count [formatFileSize] computes what
    [formatBytes] computes. *)
Lemma formatFileSize_integer (bytes : Z) (decimals : option Z) :
  (0 <= bytes)%Z ->
  formatFileSize (Fin (IZR bytes)) decimals = formatBytes bytes decimals.
Proof.
  intros Hb. unfold formatFileSize, formatBytes.
  set (d := match decimals with Some d => d | None => 2%Z end).
  cbv zeta.
  set (dm := if (d <? 0)%Z then 0%Z else d).
  assert (Hdm : (0 <= dm)%Z) by (unfold dm; destruct (Z.ltb_spec d 0); lia).
  unfold JS.strict_eq.
  destruct (Z.eqb_spec bytes 0) as [-> | Hne].
  { now rewrite Reqb_true. }
  assert (Hpos : 0 < IZR bytes) by (apply IZR_lt; lia).
  rewrite Reqb_false by lra.
  destruct (unit_index_bounds bytes ltac:(lia)) as (Hi & Hlo & _).
  set (i := (Z.log2 bytes / 10)%Z) in *.
  assert (Hp : (0 < 1024 ^ i)%Z) by (apply Z.pow_pos_nonneg; lia).
  assert (HpR : 0 < IZR (1024 ^ i)) by now apply IZR_lt.
  unfold JS.log.
  rewrite (Rltb_false (IZR bytes) 0), (Rltb_true 0 (IZR bytes)) by lra.
  rewrite (Rltb_false 1024 0), (Rltb_true 0 1024) by lra.
  rewrite div_Fin by apply ln_1024_pos.
  cbn [JS.floor]. rewrite floor_log_1024 by lia. fold i.
  cbn [JS.pow]. rewrite Rpower_1024 by assumption.
  rewrite div_Fin by assumption.
  unfold Str.toFixed.
  replace (dm <? 0)%Z with false by (symmetry; apply Z.ltb_ge; lia).
  cbn [orb].
  destruct (100 <? dm)%Z; [reflexivity |].
  assert (Hq : 0 <= IZR bytes / IZR (1024 ^ i)).
  { apply Rlt_le, Rdiv_lt_0_compat; assumption. }
  rewrite Rltb_false by exact Hq.
  rewrite toFixed_rounding by assumption.
  unfold element, JS.index_of. rewrite ZfloorZ.
  rewrite Reqb_true by reflexivity.
  rewrite Rleb_true by (apply IZR_le; lia).
  reflexivity.
Qed.

(** Up to 1024^4 - 1 bytes the unit is the largest of Bytes, KB, MB, GB
    whose size does not exceed the byte count. *)
Lemma unit_index_in_range (bytes : Z) :
  (1 <= bytes < 1024 ^ 4)%Z ->
  (0 <= Z.log2 bytes / 10 <= 3)%Z.
Proof.
  intros [Hlo Hhi].
  destruct (unit_index_bounds bytes Hlo) as (Hi & Hle & _).
  split; [assumption |].
  destruct (Z_le_gt_dec (Z.log2 bytes / 10) 3) as [| Hbig]; [assumption |].
  assert (1024 ^ 4 <= 1024 ^ (Z.log2 bytes / 10))%Z
    by (apply Z.pow_le_mono_r; lia).
  lia.
Qed.

Lemma formatFileSize_zero (decimals : option Z) :
  formatFileSize (Fin 0) decimals = Some "0 Bytes"%string.
Proof. unfold formatFileSize, JS.strict_eq. now rewrite Reqb_true. Qed.

Example formatFileSize_1536 :
  formatFileSize (Fin 1536) (Some 2%Z) = Some "1.5 KB"%string.
Proof. rewrite formatFileSize_integer by lia. vm_compute. reflexivity. Qed.

Example formatFileSize_1_GB :
  formatFileSize (Fin 1073741824) None = Some "1 GB"%string.
Proof. rewrite formatFileSize_integer by lia. vm_compute. reflexivity. Qed.

(** C8, on the code: 1024^4 bytes (1 TiB) have unit index 4, the array
    [sizes] has no such element, and the text ends in "undefined" instead
    of a unit among Bytes, KB, MB, GB. *)
Theorem formatFileSize_beyond_GB :
  formatFileSize (Fin 1099511627776) None = Some "1 undefined"%string.
Proof. rewrite formatFileSize_integer by lia. vm_compute. reflexivity. Qed.

(** ** Examples of parsing *)

Lemma parseFloat_finite (s : string) (neg : bool) (m : N) (e : Z) (q : Q) :
  Str.parseLiteral s = Str.LNum neg m e ->
  Str.literal_Q neg m e = q ->
  Str.parseFloat s = Fin (Q2R q).
Proof. intros Hl <-. unfold Str.parseFloat. now rewrite Hl. Qed.

Example parseFileSize_KB : parseFileSize "1.5 KB" = Fin 1536.
Proof.
  unfold parseFileSize.
  rewrite (parseFloat_finite "1.5 KB" false 15 (-1) (3 # 2))
    by (vm_compute; reflexivity).
  change (Str.includes (Str.toLowerCase "1.5 KB") "kb") with true.
  cbn [JS.isNaN JS.mul]. f_equal. unfold Q2R. cbn. lra.
Qed.

Example parseFileSize_MB : parseFileSize "5 mb" = Fin 5242880.
Proof.
  unfold parseFileSize.
  rewrite (parseFloat_finite "5 mb" false 5 0 (5 # 1))
    by (vm_compute; reflexivity).
  change (Str.includes (Str.toLowerCase "5 mb") "kb") with false.
  change (Str.includes (Str.toLowerCase "5 mb") "mb") with true.
  cbn [JS.isNaN JS.mul]. f_equal. unfold Q2R. cbn. lra.
Qed.

Example parseFileSize_unparseable : parseFileSize "large" = Fin 0.
Proof.
  unfold parseFileSize, Str.parseFloat.
  replace (Str.parseLiteral "large") with Str.LNaN
    by (vm_compute; reflexivity).
  reflexivity.
Qed.

(** * Further properties of the code *)

(** ** Size targeting: dimensions in the shrink regime *)

Lemma Zfloor_between (x : R) (w : Z) :
  0 <= x <= IZR w -> (0 <= Zfloor x <= w)%Z.
Proof.
  intros [H0 Hw]. split.
  - apply Zfloor_lub. exact H0.
  - apply le_IZR. pose proof (Zfloor_bound x). lra.
Qed.

(** In the far-from-target branch the factor [Math.max(ratio, 0.7)] lies
    between 0.7 and 1. *)
Lemma far_factor (t c : R) :
  0 <= t -> t < c ->
  exists f,
    JS.max (JS.sqrt (JS.div (Fin t) (Fin c))) (Fin 0.7) = Fin f
    /\ 0.7 <= f <= 1.
Proof.
  intros Ht Hc.
  rewrite div_Fin by lra.
  assert (Hq : 0 <= t / c <= 1).
  { split.
    - apply Rmult_le_reg_r with c; [lra |].
      unfold Rdiv. rewrite Rmult_assoc, Rinv_l by lra. lra.
    - apply Rmult_le_reg_r with c; [lra |].
      unfold Rdiv. rewrite Rmult_assoc, Rinv_l by lra. lra. }
  rewrite sqrt_Fin by lra.
  assert (Hs : sqrt (t / c) <= 1).
  { rewrite <- sqrt_1. apply sqrt_le_1_alt. lra. }
  destruct (Rlt_dec (sqrt (t / c)) 0.7).
  - rewrite max_Fin_r by assumption. eexists; split; [reflexivity | lra].
  - rewrite max_Fin_l by lra. eexists; split; [reflexivity | lra].
Qed.

(** X1: in the far-from-target branch (the current size exceeds a
    non-negative target by more than half the target) a dimension [w], a
    whole number from 0 to the largest canvas dimension, becomes a whole
    number [w'] with [0.7 * w - 1 <= w' <= w], and the quality is
    unchanged.  (The lower bound is not strict: it leaves room for the
    rounding of the product before the floor is taken.) *)
Theorem far_branch_shrink_bounded (t c : R) (w : Z) (h q : num) :
  0 <= t -> t * 0.5 < c - t -> (0 <= w <= 2147483647)%Z ->
  exists w' : Z,
    adjust (Fin t) (Fin (IZR w)) h q (Fin c)
    = (Fin (IZR w'),
       JS.floor (JS.mul h (JS.max (JS.sqrt (JS.div (Fin t) (Fin c))) (Fin 0.7))),
       q)
    /\ (7 * w - 10 <= 10 * w')%Z /\ (w' <= w)%Z.
Proof.
  intros Ht Hfar Hw.
  rewrite adjust_far by lra.
  destruct (far_factor t c) as (f & Hf & Hf1); [lra | lra |].
  rewrite Hf. cbn [JS.mul JS.floor].
  exists (Zfloor (IZR w * f)). split; [reflexivity |].
  pose proof (Zfloor_bound (IZR w * f)) as Hfl.
  assert (Hw0 : 0 <= IZR w) by (apply (IZR_le 0); lia).
  assert (Hprod : 0.7 * IZR w <= IZR w * f <= IZR w) by nra.
  split; apply le_IZR.
  - rewrite minus_IZR, !mult_IZR. lra.
  - lra.
Qed.

Lemma far_branch_shrink_bounded_witness :
  0 <= 400 /\ 400 * 0.5 < 1000 - 400 /\ (0 <= 400 <= 2147483647)%Z
  /\ exists w' : Z,
       adjust (Fin 400) (Fin (IZR 400)) (Fin 400) (Fin 0.9) (Fin 1000)
       = (Fin (IZR w'),
          JS.floor (JS.mul (Fin 400)
                      (JS.max (JS.sqrt (JS.div (Fin 400) (Fin 1000)))
                         (Fin 0.7))),
          Fin 0.9)
       /\ (7 * 400 - 10 <= 10 * w')%Z /\ (w' <= 400)%Z.
Proof.
  split; [lra | split; [lra | split; [lia |]]].
  apply (far_branch_shrink_bounded 400 1000 400 (Fin 400) (Fin 0.9));
    [lra | lra | lia].
Defined.

(** Assigned to a canvas, a whole dimension from 0 up never grows: it is
    kept, reduced modulo 2^32 or replaced by the default. *)
Lemma dimension_within (default z : Z) :
  (0 <= default <= 2147483647)%Z -> (0 <= z)%Z ->
  exists z' : Z,
    HTMLCanvas.dimension default (Fin (IZR z)) = Fin (IZR z')
    /\ (0 <= z' <= z)%Z.
Proof.
  intros Hd Hz.
  unfold HTMLCanvas.dimension, HTMLCanvas.ToUint32, HTMLCanvas.truncate.
  rewrite (Rltb_false (IZR z) 0) by (apply (IZR_le 0); lia).
  rewrite (Zfloor_eq z (IZR z)) by lra.
  pose proof (Z.mod_pos_bound z (2 ^ 32) ltac:(lia)) as Hmod.
  pose proof (Z.mod_le z (2 ^ 32) Hz ltac:(lia)) as Hle.
  destruct (Z.leb_spec (z mod 2 ^ 32) 2147483647) as [Hsmall | Hlarge].
  - eexists. split; [reflexivity | lia].
  - eexists. split; [reflexivity | lia].
Qed.

Section ShrinkDimensions.

Variable host : Host.
Variable file : File.
Variable img : Image.
Variable t : R.
Variable m : Z.
Hypothesis target_positive : 0 < t.

(** One parameter update keeps whole dimensions between 0 and their
    current value. *)
Lemma adjust_dimensions (w h : Z) (q : num) (n : N) :
  (0 <= w)%Z -> (0 <= h)%Z ->
  exists (w' h' : Z) (q' : num),
    adjust (Fin t) (Fin (IZR w)) (Fin (IZR h)) q (JS.of_N n)
    = (Fin (IZR w'), Fin (IZR h'), q')
    /\ (0 <= w' <= w)%Z /\ (0 <= h' <= h)%Z.
Proof.
  intros Hw Hh. unfold JS.of_N. set (c := IZR (Z.of_N n)).
  assert (Hc : 0 <= c) by (apply IZR_le; lia).
  apply IZR_le in Hw as HwR. apply IZR_le in Hh as HhR.
  destruct (Rlt_dec 0 (c - t)) as [Hover | Hunder].
  - destruct (Rlt_dec (t * 0.5) (c - t)) as [Hfar | Hclose].
    + rewrite adjust_far by lra.
      destruct (far_factor t c) as (f & -> & Hf); [lra | lra |].
      cbn [JS.mul JS.floor].
      exists (Zfloor (IZR w * f)), (Zfloor (IZR h * f)), q.
      split; [reflexivity |].
      split; apply Zfloor_between; nra.
    + rewrite adjust_close by lra.
      eexists w, h, _. split; [reflexivity | lia].
  - rewrite adjust_undershoot by lra.
    destruct (undershoot_divisor t c) as (d & -> & Hd); [lra | lra |].
    rewrite !div_Fin by lra. cbn [JS.floor].
    eexists (Zfloor (IZR w / d)), (Zfloor (IZR h / d)), _.
    split; [reflexivity |].
    assert (Hinv : 0 < / d <= 1).
    { split; [apply Rinv_0_lt_compat; lra |].
      rewrite <- Rinv_1. apply Rinv_le_contravar; lra. }
    split; apply Zfloor_between; unfold Rdiv; nra.
Qed.

(** The loop only encodes canvases within the image's dimensions, unless
    it runs out of iterations before any blob was recorded. *)
Lemma compressStep_dimensions (fuel : nat) :
  forall st run (w h : Z) (n : N),
    width st = Fin (IZR w) -> height st = Fin (IZR h) ->
    (0 <= w <= Z.of_N (img_width img))%Z ->
    (0 <= h <= Z.of_N (img_height img))%Z ->
    currentSize st = JS.of_N n ->
    (bestMatchFile st <> None \/ (currentIteration st < m)%Z) ->
    (bestMatchFile st = None -> bestMatchDiff st = PInf) ->
    compressStep host file img (Fin t) m fuel st = Some run ->
    Forall (canvas_within img) (snd run).
Proof.
  induction fuel as [| fuel IH];
    intros st run w h n Hw Hh Hwb Hhb Hcur Hbest Hdiff Hrun; [discriminate |].
  destruct (Z_lt_le_dec (currentIteration st) m) as [Hmore | Hdone].
  - cbn [compressStep] in Hrun.
    replace (currentIteration st >=? m)%Z with false in Hrun
      by (symmetry; rewrite Z.geb_leb; apply Z.leb_gt; lia).
    rewrite Hw, Hh, Hcur in Hrun.
    destruct (adjust_dimensions w h (quality st) n)
      as (w' & h' & q' & Hadj & Hw' & Hh'); [lia | lia |].
    rewrite Hadj in Hrun.
    assert (Hcall : forall cv ty q,
               canvas_width cv = HTMLCanvas.dimension 300 (Fin (IZR w')) ->
               canvas_height cv = HTMLCanvas.dimension 150 (Fin (IZR h')) ->
               canvas_within img (mkCall cv ty q)).
    { intros cv ty q Hcw Hch.
      destruct (dimension_within 300 w') as (a & Ha & Hab); [lia | lia |].
      destruct (dimension_within 150 h') as (b & Hb & Hbb); [lia | lia |].
      exists a, b. cbn. rewrite Hcw, Hch.
      repeat split; try assumption; lia. }
    unfold toBlob in Hrun.
    destruct (host_toBlob host _) as [blob |].
    + destruct (within_tolerance (Fin t) _).
      * injection Hrun as <-. repeat constructor. now apply Hcall.
      * match type of Hrun with
        | option_map _ ?r = _ => destruct r as [run' |] eqn:Hrun'
        end; [| discriminate].
        injection Hrun as <-. constructor; [now apply Hcall |].
        eapply (IH _ run' w' h' (blob_size blob)); [..| exact Hrun'];
          try reflexivity; try lia.
        -- left. cbn [bestMatchFile].
           destruct (bestMatchFile st) as [f |] eqn:Hf.
           ++ destruct (JS.lt _ _); discriminate.
           ++ rewrite (Hdiff eq_refl). cbn [JS.abs JS.sub JS.add JS.neg
                                            JS.of_N JS.lt]. discriminate.
        -- cbn [bestMatchFile bestMatchDiff]. intros Hnone.
           destruct (JS.lt _ _); [discriminate | now apply Hdiff].
    + injection Hrun as <-. repeat constructor. now apply Hcall.
  - rewrite compressStep_exhausted in Hrun by assumption.
    destruct Hbest as [Hsome | Hlt]; [| lia].
    destruct (bestMatchFile st); [| contradiction].
    injection Hrun as <-. constructor.
Qed.

End ShrinkDimensions.

(** X2: in the shrink regime (a positive target below the file size, at
    least one iteration allowed) [resizeImageToSize] never encodes a canvas
    larger than the image: every encode call is made on a canvas with whole
    dimensions between 0 and the image's width and height. *)
Theorem shrink_regime_never_enlarges
    (host : Host) (file : File) (img : Image) (t : R) (m : Z) :
  host_load host file = Some img ->
  0 < t < IZR (Z.of_N (file_size file)) ->
  (1 <= m)%Z ->
  exists run,
    resizeImageToSize host file (Fin t) (Some m) = Some run
    /\ Forall (canvas_within img) (snd run).
Proof.
  intros Hload Ht Hm.
  destruct (resizeImageToSize_settles host file (Fin t) (Some m))
    as [run Hrun].
  exists run. split; [exact Hrun |].
  unfold resizeImageToSize in Hrun. rewrite Hload in Hrun.
  unfold onload, JS.of_N in Hrun. rewrite le_Fin_false in Hrun by lra.
  destruct (host_context host); cbn [negb] in Hrun;
    [| injection Hrun as <-; constructor].
  eapply (compressStep_dimensions host file img t m (proj1 Ht) _ _ run
            (Z.of_N (img_width img)) (Z.of_N (img_height img))
            (file_size file));
    [..| exact Hrun]; try reflexivity; try lia.
  right. cbn [currentIteration]. lia.
Qed.

Lemma shrink_regime_never_enlarges_witness :
  let host := Sample.constant_host 100 in
  host_load host Sample.photo = Some Sample.image
  /\ 0 < 400 < IZR (Z.of_N (file_size Sample.photo))
  /\ (1 <= 2)%Z
  /\ exists run,
       resizeImageToSize host Sample.photo (Fin 400) (Some 2%Z) = Some run
       /\ Forall (canvas_within Sample.image) (snd run).
Proof.
  intros host.
  assert (Hsize : 0 < 400 < IZR (Z.of_N (file_size Sample.photo)))
    by (cbn [file_size Sample.photo Z.of_N]; lra).
  split; [reflexivity | split; [exact Hsize | split; [lia |]]].
  exact (shrink_regime_never_enlarges host Sample.photo Sample.image 400 2
           eq_refl Hsize ltac:(lia)).
Defined.

(** ** Size targeting: how many encodes, and what settles the promise *)

Section AnyHost.

Variable host : Host.
Variable file : File.
Variable img : Image.
Variable targetSize : num.
Variable m : Z.

Lemma compressStep_call_count (fuel : nat) :
  forall st run,
    compressStep host file img targetSize m fuel st = Some run ->
    (List.length (snd run) <= S (Z.to_nat (m - currentIteration st)))%nat.
Proof.
  induction fuel as [| fuel IH]; intros st run Hrun; [discriminate |].
  cbn [compressStep] in Hrun.
  destruct (currentIteration st >=? m)%Z eqn:Hend.
  - destruct (bestMatchFile st).
    + injection Hrun as <-. cbn. lia.
    + unfold toBlob in Hrun.
      destruct (host_toBlob host _); injection Hrun as <-; cbn; lia.
  - rewrite Z.geb_leb in Hend. apply Z.leb_gt in Hend.
    destruct (adjust targetSize _ _ _ _) as [[w h] q].
    unfold toBlob in Hrun.
    destruct (host_toBlob host _) as [blob |];
      [| injection Hrun as <-; cbn; lia].
    destruct (within_tolerance targetSize _);
      [injection Hrun as <-; cbn; lia |].
    match type of Hrun with
    | option_map _ ?r = _ => destruct r as [run' |] eqn:Hrun'
    end; [| discriminate].
    injection Hrun as <-. apply IH in Hrun'.
    cbn [currentIteration] in Hrun'. cbn [logged snd List.length]. lia.
Qed.

(** What the loop settles with, given that a recorded best match is the
    blob of an earlier call. *)
Lemma compressStep_outcome (fuel : nat) :
  forall st prev outcome calls,
    (forall best, bestMatchFile st = Some best ->
                  encoded_by host file prev best) ->
    compressStep host file img targetSize m fuel st = Some (outcome, calls) ->
    match outcome with
    | Resolved f => encoded_by host file (prev ++ calls) f
    | Rejected message =>
        message = "Failed to create blob"%string
        /\ exists pre c, calls = pre ++ [c] /\ host_toBlob host c = None
    end.
Proof.
  induction fuel as [| fuel IH]; intros st prev outcome calls Hbest Hrun;
    [discriminate |].
  cbn [compressStep] in Hrun.
  destruct (currentIteration st >=? m)%Z.
  - destruct (bestMatchFile st) as [best |].
    + injection Hrun as <- <-. rewrite app_nil_r. now apply Hbest.
    + unfold toBlob in Hrun.
      destruct (host_toBlob host _) as [blob |] eqn:Hblob;
        injection Hrun as <- <-.
      * eexists _, blob. split; [| split; [exact Hblob | reflexivity]].
        apply in_or_app. right. now left.
      * split; [reflexivity |]. now eexists [], _.
  - destruct (adjust targetSize _ _ _ _) as [[w h] q].
    unfold toBlob in Hrun.
    match type of Hrun with
    | context [host_toBlob host ?c] =>
        set (call := c) in *;
        destruct (host_toBlob host call) as [blob |] eqn:Hblob
    end.
    + assert (Hnew : encoded_by host file (prev ++ [call])
                       (new_File blob file)).
      { exists call, blob. split; [| split; [exact Hblob | reflexivity]].
        apply in_or_app. right. now left. }
      destruct (within_tolerance targetSize _).
      * injection Hrun as <- <-. exact Hnew.
      * match type of Hrun with
        | option_map _ ?r = _ => destruct r as [[outcome' calls'] |] eqn:Hrun'
        end; [| discriminate].
        injection Hrun as <- <-.
        apply (IH _ (prev ++ [call])) in Hrun'.
        -- destruct outcome' as [f | message].
           ++ now rewrite <- app_assoc in Hrun'.
           ++ destruct Hrun' as (Hmsg & pre & c & -> & Hc).
              split; [exact Hmsg |]. now exists (call :: pre), c.
        -- cbn [bestMatchFile]. intros best Hsome.
           destruct (JS.lt _ _).
           ++ injection Hsome as <-. exact Hnew.
           ++ destruct (Hbest best Hsome) as (c & b & Hin & Hc & Hf).
              exists c, b. split; [| now split].
              apply in_or_app. now left.
    + injection Hrun as <- <-. split; [reflexivity |]. now eexists [], _.
Qed.

End AnyHost.

(** X3: whatever the host, the file and the target (even [NaN]),
    [resizeImageToSize] makes at most [maxIterations + 1] encode calls (one
    call when [maxIterations] is negative). *)
Theorem resizeImageToSize_call_count
    (host : Host) (file : File) (targetSize : num)
    (maxIterations : option Z) :
  let m := match maxIterations with Some m => m | None => 20%Z end in
  exists run,
    resizeImageToSize host file targetSize maxIterations = Some run
    /\ (List.length (snd run) <= S (Z.to_nat m))%nat.
Proof.
  intros m.
  destruct (resizeImageToSize_settles host file targetSize maxIterations)
    as [run Hrun].
  exists run. split; [exact Hrun |].
  unfold resizeImageToSize in Hrun.
  destruct (host_load host file) as [img |];
    [| injection Hrun as <-; cbn; lia].
  fold m in Hrun. unfold onload in Hrun.
  destruct (JS.le _ targetSize); destruct (host_context host);
    cbn [negb] in Hrun; try (injection Hrun as <-; cbn; lia).
  - unfold toBlob in Hrun.
    destruct (host_toBlob host _); injection Hrun as <-; cbn; lia.
  - apply compressStep_call_count in Hrun.
    cbn [currentIteration] in Hrun. rewrite Z.sub_0_r in Hrun. exact Hrun.
Qed.

(** X4: how [resizeImageToSize] settles, for every host, file, target and
    bound.  A resolved file is always the blob the host returned for one of
    the logged encode calls, under the name and type of the input file.  A
    rejection is one of three: the image did not load or no 2D context was
    available (and nothing was encoded), or the last encode call returned no
    blob. *)
Theorem resizeImageToSize_outcome
    (host : Host) (file : File) (targetSize : num)
    (maxIterations : option Z) :
  exists outcome calls,
    resizeImageToSize host file targetSize maxIterations
    = Some (outcome, calls)
    /\ match outcome with
       | Resolved f => encoded_by host file calls f
       | Rejected message =>
           (message = "Failed to load image"%string
            /\ calls = [] /\ host_load host file = None)
           \/ (message = "Could not get canvas context"%string
               /\ calls = [] /\ host_context host = false)
           \/ (message = "Failed to create blob"%string
               /\ exists pre c,
                    calls = pre ++ [c] /\ host_toBlob host c = None)
       end.
Proof.
  destruct (resizeImageToSize_settles host file targetSize maxIterations)
    as [[outcome calls] Hrun].
  exists outcome, calls. split; [exact Hrun |].
  unfold resizeImageToSize in Hrun.
  destruct (host_load host file) as [img |] eqn:Hload;
    [| injection Hrun as <- <-; now left].
  unfold onload in Hrun.
  destruct (host_context host) eqn:Hctx; cbn [negb] in Hrun.
  - destruct (JS.le _ targetSize).
    + unfold toBlob in Hrun.
      destruct (host_toBlob host _) as [blob |] eqn:Hblob;
        injection Hrun as <- <-.
      * eexists _, blob. split; [now left | now split].
      * right; right. split; [reflexivity |]. now eexists [], _.
    + apply (compressStep_outcome _ _ _ _ _ _ _ []) in Hrun;
        [| discriminate].
      destruct outcome; [exact Hrun | right; right; exact Hrun].
  - destruct (JS.le _ targetSize); injection Hrun as <- <-;
      right; left; now repeat split.
Qed.

(** ** Size targeting: dimensions in the growth regime *)



(** ** Unit conversion: the other direction, and a zero dpi *)

(** X6: at a positive dpi (given or the default 96), converting a finite
    pixel count to inches or to centimetres and back returns the pixel
    count, and the centimetre value is 2.54 times the inch value. *)
Theorem convertUnits_pixels_round_trip (p d : R) (dpi : option num) :
  convertUnits.dpi_or_default dpi = Fin d ->
  0 < d ->
  convertUnits.inchesToPixels (convertUnits.pixelsToInches (Fin p) dpi) dpi
  = Fin p
  /\ convertUnits.cmToPixels (convertUnits.pixelsToCm (Fin p) dpi) dpi
     = Fin p
  /\ convertUnits.pixelsToCm (Fin p) dpi
     = JS.mul (convertUnits.pixelsToInches (Fin p) dpi) (Fin 2.54).
Proof.
  intros Hd Hpos.
  unfold convertUnits.pixelsToInches, convertUnits.inchesToPixels,
    convertUnits.pixelsToCm, convertUnits.cmToPixels.
  rewrite Hd. rewrite !div_Fin by assumption. cbn [JS.mul].
  rewrite div_Fin by lra. cbn [JS.mul].
  repeat split; f_equal; field; lra.
Qed.

Lemma convertUnits_pixels_round_trip_witness :
  convertUnits.dpi_or_default (Some (Fin 300)) = Fin 300
  /\ 0 < 300
  /\ convertUnits.inchesToPixels
       (convertUnits.pixelsToInches (Fin 900) (Some (Fin 300)))
       (Some (Fin 300))
     = Fin 900
  /\ convertUnits.cmToPixels
       (convertUnits.pixelsToCm (Fin 900) (Some (Fin 300)))
       (Some (Fin 300))
     = Fin 900
  /\ convertUnits.pixelsToCm (Fin 900) (Some (Fin 300))
     = JS.mul (convertUnits.pixelsToInches (Fin 900) (Some (Fin 300)))
         (Fin 2.54).
Proof.
  split; [reflexivity | split; [lra |]].
  apply (convertUnits_pixels_round_trip 900 300 (Some (Fin 300)));
    [reflexivity | lra].
Defined.

(** X7: at a dpi of 0 the conversions do not invert each other: every
    finite length becomes 0 pixels, and converting that back gives [NaN],
    for inches and for centimetres alike. *)
Theorem convertUnits_zero_dpi (x : R) :
  convertUnits.inchesToPixels (Fin x) (Some (Fin 0)) = Fin 0
  /\ convertUnits.cmToPixels (Fin x) (Some (Fin 0)) = Fin 0
  /\ convertUnits.pixelsToInches
       (convertUnits.inchesToPixels (Fin x) (Some (Fin 0))) (Some (Fin 0))
     = NaN
  /\ convertUnits.pixelsToCm
       (convertUnits.cmToPixels (Fin x) (Some (Fin 0))) (Some (Fin 0))
     = NaN.
Proof.
  unfold convertUnits.pixelsToInches, convertUnits.inchesToPixels,
    convertUnits.pixelsToCm, convertUnits.cmToPixels,
    convertUnits.dpi_or_default.
  rewrite (div_Fin x 2.54) by lra. cbn [JS.mul].
  replace (x * 0) with 0 by ring.
  replace (x / 2.54 * 0) with 0 by ring.
  assert (Hnan : JS.div (Fin 0) (Fin 0) = NaN).
  { unfold JS.div, JS.scale_inf. now rewrite !(Rltb_false 0 0) by lra. }
  rewrite Hnan. repeat split.
Qed.

(** ** The crop box of the cropper *)

(** Evaluate arithmetic, [Math.max] and [Math.min] on finite numbers,
    splitting on every comparison met. *)
Ltac fin_eval :=
  repeat (cbn [JS.add JS.sub JS.neg JS.mul JS.max JS.min JS.lt
               rect_x rect_y rect_width rect_height dim_width dim_height];
          unfold JS.Rltb;
          match goal with
          | |- context [Rlt_dec ?a ?b] => destruct (Rlt_dec a b)
          end);
  cbn [JS.add JS.sub JS.neg JS.mul JS.max JS.min JS.lt
       rect_x rect_y rect_width rect_height dim_width dim_height].

(** X8: resizing a crop box that lies inside the canvas with a
    non-negative size.  The box stored by the resize branch again lies
    inside the canvas with a non-negative size exactly when the dragged
    corner was not carried past the opposite edges of the box: the new
    width and height have no lower clamp, so a left handle dragged right by
    more than the width (or a top handle dragged down by more than the
    height) stores a negative size. *)
Theorem resizeCropBox_inside_canvas
    (handle : Handle) (W H x y w h dx dy : R) :
  let cropBox :=
    {| rect_x := Fin x; rect_y := Fin y;
       rect_width := Fin w; rect_height := Fin h |} in
  rect_within cropBox W H ->
  rect_within
    (resizeCropBox handle {| dim_width := Fin W; dim_height := Fin H |}
       cropBox (Fin dx) (Fin dy))
    W H
  <-> keeps_side handle w h dx dy.
Proof.
  intros cropBox (x0 & y0 & w0 & h0 & Hbox & Hx & Hy & Hw & Hh & HW & HH).
  injection Hbox as <- <- <- <-.
  unfold rect_within, keeps_side, resizeCropBox, cropBox.
  destruct handle; fin_eval;
    (split;
     [ intros (x1 & y1 & w1 & h1 & Heq & Hin);
       injection Heq as <- <- <- <-; repeat split; lra
     | intros Hside; eexists _, _, _, _;
       split; [reflexivity | repeat split; lra] ]).
Qed.

(** A box at (50, 50) of 20 x 20 on a 200 x 200 canvas, its top left
    corner dragged by (5, -10). *)
Lemma resizeCropBox_inside_canvas_witness :
  let cropBox :=
    {| rect_x := Fin 50; rect_y := Fin 50;
       rect_width := Fin 20; rect_height := Fin 20 |} in
  rect_within cropBox 200 200
  /\ (rect_within
        (resizeCropBox topLeft
           {| dim_width := Fin 200; dim_height := Fin 200 |}
           cropBox (Fin 5) (Fin (-10)))
        200 200
      <-> keeps_side topLeft 20 20 5 (-10)).
Proof.
  intros cropBox.
  assert (Hbox : rect_within cropBox 200 200).
  { exists 50, 50, 20, 20. split; [reflexivity | repeat split; lra]. }
  split; [exact Hbox |].
  exact (resizeCropBox_inside_canvas topLeft 200 200 50 50 20 20 5 (-10)
           Hbox).
Defined.

(** X9: moving a crop box that is no larger than the canvas keeps its size
    and leaves it inside the canvas, whatever the drag. *)
Theorem moveCropBox_inside_canvas (W H x y w h dx dy : R) :
  w <= W -> h <= H ->
  let moved :=
    moveCropBox {| dim_width := Fin W; dim_height := Fin H |}
      {| rect_x := Fin x; rect_y := Fin y;
         rect_width := Fin w; rect_height := Fin h |}
      (Fin dx) (Fin dy) in
  rect_inside moved W H
  /\ rect_width moved = Fin w /\ rect_height moved = Fin h.
Proof.
  intros Hw Hh moved. subst moved.
  unfold rect_inside, moveCropBox.
  split; [| split; reflexivity].
  fin_eval; (eexists _, _, _, _; split; [reflexivity | lra]).
Qed.

Lemma moveCropBox_inside_canvas_witness :
  let moved :=
    moveCropBox {| dim_width := Fin 200; dim_height := Fin 200 |}
      {| rect_x := Fin 150; rect_y := Fin 0;
         rect_width := Fin 100; rect_height := Fin 100 |}
      (Fin 30) (Fin (-5)) in
  100 <= 200 /\ 100 <= 200
  /\ rect_inside moved 200 200
  /\ rect_width moved = Fin 100 /\ rect_height moved = Fin 100.
Proof.
  intros moved.
  split; [lra | split; [lra |]].
  apply (moveCropBox_inside_canvas 200 200 150 0 100 100 30 (-5)); lra.
Defined.

(** The default size fields of the cropper. *)
Lemma parseFloat_3 : Str.parseFloat "3" = Fin 3.
Proof.
  rewrite (parseFloat_finite "3" false 3 0 (3 # 1)) by (vm_compute; reflexivity).
  f_equal. unfold Q2R. cbn. lra.
Qed.

Lemma parseFloat_2 : Str.parseFloat "2" = Fin 2.
Proof.
  rewrite (parseFloat_finite "2" false 2 0 (2 # 1)) by (vm_compute; reflexivity).
  f_equal. unfold Q2R. cbn. lra.
Qed.

(** ** The [resizeImage] callback: what is refused, and when it warns *)

Lemma mul_one (v : num) : JS.mul v (Fin 1) = v.
Proof.
  destruct v as [| | | r]; cbn [JS.mul]; unfold JS.scale_inf;
    rewrite ?(Rltb_true 0 1) by lra; try reflexivity.
  now rewrite Rmult_1_r.
Qed.

(** [parseFileSize] multiplies what [parseFloat] read by a positive
    factor. *)
Lemma parseFileSize_multiplier (sizeStr : string) :
  exists k,
    0 < k
    /\ parseFileSize sizeStr
       = if JS.isNaN (Str.parseFloat sizeStr) then Fin 0
         else JS.mul (Str.parseFloat sizeStr) (Fin k).
Proof.
  unfold parseFileSize.
  destruct (JS.isNaN (Str.parseFloat sizeStr));
    [exists 1; split; [lra | reflexivity] |].
  destruct (Str.includes _ "kb");
    [exists 1024; split; [lra | reflexivity] |].
  destruct (Str.includes _ "mb").
  { exists (1024 * 1024). split; [lra |]. now rewrite mul_mul_Fin by lra. }
  destruct (Str.includes _ "gb").
  { exists (1024 * (1024 * 1024)). split; [lra |].
    now rewrite !mul_mul_Fin by lra. }
  exists 1. split; [lra |]. now rewrite mul_one.
Qed.

(** X13: [resizeImage] reports an invalid size, without encoding anything,
    exactly when the text does not start with a number or starts with a
    number that is zero, negative or [-Infinity]. *)
Theorem resizeImage_invalid_size
    (host : Host) (original : File) (targetSizeStr : string) :
  resizeImage host (Some original) targetSizeStr = Some (InvalidSize, [])
  <-> (Str.parseFloat targetSizeStr = NaN
       \/ Str.parseFloat targetSizeStr = NInf
       \/ exists r, Str.parseFloat targetSizeStr = Fin r /\ r <= 0).
Proof.
  unfold resizeImage.
  assert (Hle : JS.le (parseFileSize targetSizeStr) (Fin 0) = true
                <-> (Str.parseFloat targetSizeStr = NaN
                     \/ Str.parseFloat targetSizeStr = NInf
                     \/ exists r,
                          Str.parseFloat targetSizeStr = Fin r /\ r <= 0)).
  { destruct (parseFileSize_multiplier targetSizeStr) as (k & Hk & ->).
    destruct (Str.parseFloat targetSizeStr) as [| | | r];
      cbn [JS.isNaN JS.mul]; unfold JS.scale_inf;
      rewrite ?(Rltb_true 0 k) by assumption.
    - split; [now left | intros _; apply le_Fin; lra].
    - split; [discriminate |].
      intros [E | [E | (r & E & _)]]; discriminate.
    - split; [intros _; right; now left | reflexivity].
    - destruct (Rle_dec r 0) as [Hr | Hr].
      + rewrite le_Fin by nra.
        split; [intros _; right; right; now exists r | reflexivity].
      + rewrite le_Fin_false by nra.
        split; [discriminate |].
        intros [E | [E | (r' & E & Hr')]]; try discriminate.
        injection E as <-. contradiction. }
  destruct (JS.le (parseFileSize targetSizeStr) (Fin 0)) eqn:Hguard.
  - split; [intros _; now apply Hle | reflexivity].
  - split.
    + intros Hrun.
      destruct (resizeImageToSize host original _ None)
        as [[[f | msg] calls] |]; discriminate.
    + intros H. apply Hle in H. discriminate.
Qed.

(** X14: past the guard, the report follows the run: a rejected run is
    reported as a failure; a resolved run is reported with its file, and the
    warning is shown exactly when the file's size is more than 10% away from
    the target. *)
Theorem resizeImage_report
    (host : Host) (original : File) (targetSizeStr : string) (t : R) :
  parseFileSize targetSizeStr = Fin t ->
  0 < t ->
  exists outcome calls,
    resizeImageToSize host original (Fin t) None = Some (outcome, calls)
    /\ resizeImage host (Some original) targetSizeStr
       = Some (match outcome with
               | Rejected _ => ResizeFailed
               | Resolved f =>
                   Resized f
                     (if Rlt_dec (0.1 * t)
                           (Rabs (IZR (Z.of_N (file_size f)) - t))
                      then true else false)
               end, calls).
Proof.
  intros Hparse Ht.
  destruct (resizeImageToSize_settles host original (Fin t) None)
    as [[outcome calls] Hrun].
  exists outcome, calls. split; [exact Hrun |].
  unfold resizeImage. rewrite Hparse.
  rewrite le_Fin_false by assumption. rewrite Hrun.
  destruct outcome as [f | message]; [| reflexivity].
  unfold JS.of_N. cbn [JS.sub JS.neg JS.add JS.abs].
  rewrite div_Fin by assumption. cbn [JS.mul JS.gt JS.lt].
  set (dist := Rabs (IZR (Z.of_N (file_size f)) + - t)).
  change (Rabs (IZR (Z.of_N (file_size f)) - t)) with dist.
  assert (Hiff : 10 < dist / t * 100 <-> 0.1 * t < dist).
  { assert (Hd : dist / t * 100 = dist * (100 / t)) by (field; lra).
    rewrite Hd.
    assert (Hpos : 0 < 100 / t) by (apply Rdiv_lt_0_compat; lra).
    assert (Hone : t * (100 / t) = 100) by (field; lra).
    split; intros H; nra. }
  unfold JS.Rltb.
  destruct (Rlt_dec 10 (dist / t * 100)), (Rlt_dec (0.1 * t) dist);
    try reflexivity; exfalso; tauto.
Qed.

Lemma parseFileSize_400 : parseFileSize "400" = Fin 400.
Proof.
  unfold parseFileSize.
  rewrite (parseFloat_finite "400" false 400 0 (400 # 1))
    by (vm_compute; reflexivity).
  change (Str.includes (Str.toLowerCase "400") "kb") with false.
  change (Str.includes (Str.toLowerCase "400") "mb") with false.
  change (Str.includes (Str.toLowerCase "400") "gb") with false.
  cbn [JS.isNaN]. f_equal. unfold Q2R. cbn. lra.
Qed.

Lemma resizeImage_report_witness :
  let host := Sample.constant_host 100 in
  parseFileSize "400" = Fin 400
  /\ 0 < 400
  /\ exists outcome calls,
       resizeImageToSize host Sample.photo (Fin 400) None
       = Some (outcome, calls)
       /\ resizeImage host (Some Sample.photo) "400"
          = Some (match outcome with
                  | Rejected _ => ResizeFailed
                  | Resolved f =>
                      Resized f
                        (if Rlt_dec (0.1 * 400)
                              (Rabs (IZR (Z.of_N (file_size f)) - 400))
                         then true else false)
                  end, calls).
Proof.
  intros host.
  split; [exact parseFileSize_400 | split; [lra |]].
  exact (resizeImage_report host Sample.photo "400" 400 parseFileSize_400
           ltac:(lra)).
Defined.

(** ** Printing and reading decimals *)

Section Decimals.

Local Open Scope string_scope.

Lemma digits_all (a : string) :
  all_digits a = true ->
  forall acc k b,
    Str.digits acc k (a ++ b)
    = Str.digits (number_from acc a) (k + String.length a) b.
Proof.
  induction a as [| c a IH]; intros Ha acc k b.
  - cbn. now rewrite Nat.add_0_r.
  - cbn in Ha. apply andb_true_iff in Ha as [Hc Ha].
    cbn. rewrite Hc. rewrite IH by assumption.
    f_equal. lia.
Qed.

Lemma digits_stop (acc : N) (k : nat) (b : string) :
  match b with String c _ => Str.is_digit c = false | EmptyString => True end ->
  Str.digits acc k b = (acc, k, b).
Proof. destruct b as [| c b]; cbn; [reflexivity | now intros ->]. Qed.

Lemma number_from_app (a b : string) (acc : N) :
  number_from acc (a ++ b) = number_from (number_from acc a) b.
Proof. revert acc. induction a as [| c a IH]; intros acc; cbn; auto. Qed.

Lemma all_digits_app (a b : string) :
  all_digits (a ++ b) = all_digits a && all_digits b.
Proof.
  induction a as [| c a IH]; cbn; [reflexivity |].
  now rewrite IH, andb_assoc.
Qed.

Lemma length_app (a b : string) :
  String.length (a ++ b) = (String.length a + String.length b)%nat.
Proof. induction a as [| c a IH]; cbn; auto. Qed.

(** Zeros. *)
Lemma all_digits_zeros (j : nat) : all_digits (Str.zeros j) = true.
Proof. induction j; cbn; auto. Qed.

Lemma length_zeros (j : nat) : String.length (Str.zeros j) = j.
Proof. induction j; cbn; auto. Qed.

Lemma number_from_zeros (j : nat) (acc : N) :
  number_from acc (Str.zeros j) = (acc * 10 ^ N.of_nat j)%N.
Proof.
  revert acc. induction j as [| j IH]; intros acc.
  - cbn. lia.
  - cbn [Str.zeros number_from]. rewrite IH.
    change (Str.digit_value "0") with 0%N.
    rewrite Nat2N.inj_succ, N.pow_succ_r'. ring.
Qed.

(** The digits printed for a number. *)
Lemma string_of_uint_digits (d : Decimal.uint) :
  all_digits (NilEmpty.string_of_uint d) = true.
Proof. induction d; cbn; auto. Qed.

Lemma number_from_of_uint_acc (d : Decimal.uint) (p : positive) :
  number_from (Npos p) (NilEmpty.string_of_uint d)
  = Npos (Pos.of_uint_acc d p).
Proof.
  revert p. induction d; intros p; cbn [NilEmpty.string_of_uint number_from
                                          Pos.of_uint_acc];
    try reflexivity;
    match goal with
    | |- number_from ?a _ = _ =>
        match goal with
        | |- _ = Npos (Pos.of_uint_acc _ ?q) =>
            replace a with (Npos q)
              by (match goal with
                  | |- context [Str.digit_value ?c] =>
                      let v := eval vm_compute in (Str.digit_value c) in
                      change (Str.digit_value c) with v
                  end; lia)
        end
    end; apply IHd.
Qed.

Lemma number_from_of_uint (d : Decimal.uint) :
  number_from 0 (NilEmpty.string_of_uint d) = Pos.of_uint d.
Proof.
  induction d; cbn [NilEmpty.string_of_uint number_from Pos.of_uint];
    try reflexivity;
    try (match goal with
         | |- number_from ?a _ = Npos (Pos.of_uint_acc _ ?q) =>
             change a with (Npos q)
         end; apply number_from_of_uint_acc).
  exact IHd.
Qed.

Lemma digits_of_all (n : N) : all_digits (Str.digits_of n) = true.
Proof. apply string_of_uint_digits. Qed.

Lemma number_from_digits_of (n : N) : number_from 0 (Str.digits_of n) = n.
Proof.
  unfold Str.digits_of. rewrite number_from_of_uint.
  apply DecimalN.Unsigned.of_to.
Qed.

Lemma digits_of_nonempty (n : N) : (1 <= String.length (Str.digits_of n))%nat.
Proof.
  unfold Str.digits_of. destruct n as [| p]; [cbn; lia |].
  cbn [N.to_uint].
  pose proof (DecimalPos.Unsigned.of_to p) as H.
  destruct (Pos.to_uint p); cbn in *; try lia; discriminate.
Qed.

(** Splitting a string in two with [substring]. *)
Lemma substring_all (d : string) : String.substring 0 (String.length d) d = d.
Proof. induction d as [| c d IH]; cbn; [reflexivity | now rewrite IH]. Qed.

Lemma substring_split (d : string) :
  forall k f,
    (k + f = String.length d)%nat ->
    String.substring 0 k d ++ String.substring k f d = d
    /\ String.length (String.substring 0 k d) = k.
Proof.
  induction d as [| c d IH]; intros k f Hlen.
  - cbn in Hlen. assert (k = 0%nat) by lia. assert (f = 0%nat) by lia.
    subst. now cbn.
  - destruct k as [| k].
    + cbn in Hlen. subst f. cbn. now rewrite substring_all.
    + cbn in Hlen. destruct (IH k f ltac:(lia)) as [Happ Hk].
      cbn. now rewrite Happ, Hk.
Qed.

(** The two parts [positional] cuts the digits of [n] into. *)
Lemma positional_parts (n : N) (f : nat) :
  exists ip fp,
    Str.positional n f = (ip, fp)
    /\ all_digits ip = true /\ all_digits fp = true
    /\ (1 <= String.length ip)%nat /\ String.length fp = f
    /\ number_from 0 (ip ++ fp) = n.
Proof.
  unfold Str.positional, Str.pad_left.
  set (dn := Str.digits_of n).
  set (j := (S f - String.length dn)%nat).
  set (d := Str.zeros j ++ dn).
  assert (Hlen : (S f <= String.length d)%nat).
  { unfold d. rewrite length_app, length_zeros. unfold j. lia. }
  assert (Hall : all_digits d = true).
  { unfold d. rewrite all_digits_app, all_digits_zeros. apply digits_of_all. }
  assert (Hnum : number_from 0 d = n).
  { unfold d. rewrite number_from_app, number_from_zeros.
    cbn [N.mul]. apply number_from_digits_of. }
  destruct (substring_split d (String.length d - f) f ltac:(lia))
    as [Happ Hk].
  eexists _, _. split; [reflexivity |].
  rewrite <- Happ in Hall, Hnum. rewrite all_digits_app in Hall.
  apply andb_true_iff in Hall as [Hip Hfp].
  assert (Hfl : String.length (String.substring (String.length d - f) f d) = f).
  { apply (f_equal String.length) in Happ.
    rewrite length_app, Hk in Happ. lia. }
  repeat split; try assumption. rewrite Hk. lia.
Qed.

(** A digit is neither white space nor a sign, and does not start
    [Infinity]. *)
Lemma sign_digit (c : ascii) (r : string) :
  Str.is_digit c = true ->
  Str.trimStart (String c r) = String c r
  /\ Str.sign (String c r) = (false, String c r)
  /\ String.prefix "Infinity" (String c r) = false.
Proof.
  intros Hc.
  destruct c as [[] [] [] [] [] [] [] []]; cbn in Hc; try discriminate;
    repeat split.
Qed.

Lemma no_point (T : Type) (D : string -> T) (E : T) (r1 : string) :
  ends_literal r1 = true ->
  match r1 with
  | String "." r => D r
  | _ => E
  end = E.
Proof.
  destruct r1 as [| c r]; [reflexivity |].
  unfold ends_literal. intros H. apply negb_true_iff in H.
  apply orb_false_iff in H as [H _]. apply orb_false_iff in H as [H _].
  apply orb_false_iff in H as [_ H].
  destruct c as [[] [] [] [] [] [] [] []]; try reflexivity; discriminate.
Qed.

Lemma no_exponent (rest : string) :
  ends_literal rest = true -> Str.exponent rest = 0%Z.
Proof.
  destruct rest as [| c r]; [reflexivity |].
  unfold ends_literal, Str.exponent. intros H. apply negb_true_iff in H.
  apply orb_false_iff in H as [H HE]. apply orb_false_iff in H as [_ He].
  now rewrite He, HE.
Qed.

Lemma ends_literal_stop (acc : N) (k : nat) (rest : string) :
  ends_literal rest = true -> Str.digits acc k rest = (acc, k, rest).
Proof.
  intros H. apply digits_stop. destruct rest as [| c r]; [exact I |].
  unfold ends_literal in H. apply negb_true_iff in H.
  apply orb_false_iff in H as [H _]. apply orb_false_iff in H as [H _].
  now apply orb_false_iff in H as [H _].
Qed.

(** Reading back digits with an optional fraction: [ip], or [ip.fp], is
    read as the number its digits denote, scaled by the number of fraction
    digits. *)
Lemma parseLiteral_integer (ip rest : string) :
  all_digits ip = true -> (1 <= String.length ip)%nat ->
  ends_literal rest = true ->
  Str.parseLiteral (ip ++ rest) = Str.LNum false (number_from 0 ip) 0.
Proof.
  intros Hip Hlen Hrest.
  destruct ip as [| c ip]; [cbn in Hlen; lia |].
  cbn in Hip. apply andb_true_iff in Hip as [Hc Hip].
  unfold Str.parseLiteral. cbn [append].
  destruct (sign_digit c (ip ++ rest) Hc) as (-> & -> & ->).
  change (String c (ip ++ rest)) with (String c ip ++ rest).
  rewrite digits_all by (cbn; now rewrite Hc, Hip).
  rewrite ends_literal_stop by assumption.
  rewrite no_point by assumption.
  rewrite no_exponent by assumption.
  cbn [String.length Nat.add]. reflexivity.
Qed.

Lemma parseLiteral_fraction (ip fp rest : string) :
  all_digits ip = true -> (1 <= String.length ip)%nat ->
  all_digits fp = true ->
  ends_literal rest = true ->
  Str.parseLiteral (ip ++ "." ++ fp ++ rest)
  = Str.LNum false (number_from 0 (ip ++ fp))
      (- Z.of_nat (String.length fp)).
Proof.
  intros Hip Hlen Hfp Hrest.
  destruct ip as [| c ip]; [cbn in Hlen; lia |].
  cbn in Hip. apply andb_true_iff in Hip as [Hc Hip].
  unfold Str.parseLiteral. cbn [append].
  destruct (sign_digit c (ip ++ String "." (fp ++ rest)) Hc)
    as (-> & -> & ->).
  change (String c (ip ++ String "." (fp ++ rest)))
    with (String c ip ++ String "." (fp ++ rest)).
  rewrite digits_all by (cbn; now rewrite Hc, Hip).
  rewrite digits_stop by reflexivity.
  rewrite digits_all by assumption.
  rewrite ends_literal_stop by assumption.
  rewrite no_exponent by assumption.
  change (String c (ip ++ fp)) with (String c ip ++ fp).
  rewrite number_from_app.
  cbn [String.length Nat.add Z.sub Z.add Z.opp]. reflexivity.
Qed.

Lemma append_nil_r (a : string) : a ++ "" = a.
Proof. induction a as [| c a IH]; cbn; [reflexivity | now rewrite IH]. Qed.

Lemma append_assoc (a b c : string) : (a ++ b) ++ c = a ++ (b ++ c).
Proof. induction a as [| x a IH]; cbn; [reflexivity | now rewrite IH]. Qed.

(** The value of a literal with [l] fraction digits. *)
Lemma Q2R_inject_Z (z : Z) : Q2R (inject_Z z) = IZR z.
Proof. unfold Q2R, inject_Z. cbn. field. Qed.

Lemma literal_value (m : N) (l : nat) :
  Q2R (Str.literal_Q false m (- Z.of_nat l)) = IZR (Z.of_N m) / 10 ^ l.
Proof.
  unfold Str.literal_Q.
  rewrite (Qeq_eqR _ _ (Qred_correct _)).
  rewrite !Q2R_mult, !Q2R_inject_Z.
  rewrite (Qeq_eqR _ _ (Qpower.Qpower_opp _ _)).
  assert (Hpow : Q2R (inject_Z 10 ^ Z.of_nat l) = 10 ^ l).
  { rewrite <- (Qeq_eqR _ _ (Qpower.Zpower_Qpower 10 (Z.of_nat l) ltac:(lia))).
    rewrite Q2R_inject_Z. now rewrite <- pow_IZR. }
  rewrite Q2R_inv.
  - rewrite Hpow. unfold Rdiv. ring.
  - intros H0. apply Qeq_eqR in H0. rewrite Hpow in H0.
    replace (Q2R 0) with 0 in H0 by (unfold Q2R; cbn; field).
    assert (0 < 10 ^ l) by (apply pow_lt; lra). lra.
Qed.

(** Reading back what [toFixed] writes. *)
Lemma parseLiteral_fixed (n : N) (f : nat) (rest : string) :
  ends_literal rest = true ->
  Str.parseLiteral (Str.fixed n f ++ rest)
  = Str.LNum false n (- Z.of_nat f).
Proof.
  intros Hrest. unfold Str.fixed.
  destruct (positional_parts n f)
    as (ip & fp & -> & Hip & Hfp & Hlen & Hfl & Hnum).
  destruct f as [| f].
  - destruct fp; [| discriminate]. rewrite append_nil_r in Hnum.
    rewrite parseLiteral_integer by assumption. now rewrite Hnum.
  - rewrite !append_assoc.
    rewrite parseLiteral_fraction by assumption.
    now rewrite Hnum, Hfl.
Qed.

Lemma parseFloat_fixed (n : N) (f : nat) (rest : string) :
  ends_literal rest = true ->
  Str.parseFloat (Str.fixed n f ++ rest) = Fin (IZR (Z.of_N n) / 10 ^ f).
Proof.
  intros Hrest. unfold Str.parseFloat.
  rewrite parseLiteral_fixed by assumption.
  cbn [Str.literal_num]. now rewrite literal_value.
Qed.

End Decimals.

(** ** The size fields of the cropper: changing the unit *)

(** [toFixed(2)] on a non-negative number. *)
Lemma toFixed_2 (x : R) :
  0 <= x ->
  Str.toFixed (Fin x) 2
  = Some (Str.fixed (Z.to_N (Zfloor (x * 100 + / 2))) 2).
Proof.
  intros Hx. unfold Str.toFixed. cbn [Z.ltb Z.compare orb Pos.compare
                                       Pos.compare_cont].
  rewrite Rltb_false by assumption.
  change (Z.to_nat 2) with 2%nat.
  replace (10 ^ 2) with 100 by (cbn; lra). reflexivity.
Qed.

(** One field, from inches to centimetres: a value of [k] hundredths of
    an inch is written as centimetres with two decimals, within half a
    hundredth of a centimetre. *)
Lemma field_to_cm (s : string) (k : N) :
  Str.parseFloat s = Fin (IZR (Z.of_N k) / 100) ->
  exists mid,
    Str.toFixed (JS.mul (Str.parseFloat s) (Fin 2.54)) 2 = Some mid
    /\ reads_within mid (IZR (Z.of_N k) / 100 * 2.54) (1 / 100).
Proof.
  intros Hs. rewrite Hs. cbn [JS.mul].
  set (x := IZR (Z.of_N k) / 100 * 2.54).
  assert (Hk : 0 <= IZR (Z.of_N k)) by (apply IZR_le; lia).
  assert (Hx : 0 <= x) by (unfold x; lra).
  rewrite toFixed_2 by assumption.
  set (n1 := Zfloor (x * 100 + / 2)).
  assert (Hn1 : (0 <= n1)%Z) by (apply Zfloor_lub; lra).
  pose proof (Zfloor_bound (x * 100 + / 2)) as Hb. fold n1 in Hb.
  eexists. split; [reflexivity |].
  exists (IZR n1 / 100). split; [| split].
  - rewrite <- (append_nil_r (Str.fixed (Z.to_N n1) 2)).
    rewrite parseFloat_fixed by reflexivity.
    rewrite Z2N.id by assumption.
    replace (10 ^ 2) with 100 by (cbn; lra). reflexivity.
  - apply IZR_le in Hn1. lra.
  - apply Rabs_le. lra.
Qed.

(** One field, back from centimetres: any text that reads within a
    hundredth of a centimetre of [k] hundredths of an inch is written as
    [k] hundredths of an inch. *)
Lemma field_from_cm (mid : string) (k : N) :
  reads_within mid (IZR (Z.of_N k) / 100 * 2.54) (1 / 100) ->
  Str.toFixed (JS.div (Str.parseFloat mid) (Fin 2.54)) 2
  = Some (Str.fixed k 2).
Proof.
  intros (v & Hv & Hv0 & Hclose). rewrite Hv.
  assert (Hc : - (1 / 100) <= v - IZR (Z.of_N k) / 100 * 2.54 <= 1 / 100).
  { unfold Rabs in Hclose. destruct (Rcase_abs _); lra. }
  rewrite div_Fin by lra.
  rewrite toFixed_2 by lra.
  do 2 f_equal.
  rewrite <- (N2Z.id k). f_equal.
  apply Zfloor_eq. lra.
Qed.

(** X15: switching the size fields from inches to centimetres and back is
    lossless on hundredths of an inch.  When the width and the height read
    as [k] and [l] hundredths of an inch (below ten million inches), the
    switch to centimetres writes both within a hundredth of a centimetre,
    and the switch back from any such fields, however the hundredths of a
    centimetre were rounded, writes [k] and [l] hundredths of an inch with
    two decimals. *)
Theorem handleUnitChange_inches_round_trip (w h : string) (k l : N) :
  (k < 10 ^ 9)%N -> (l < 10 ^ 9)%N ->
  Str.parseFloat w = Fin (IZR (Z.of_N k) / 100) ->
  Str.parseFloat h = Fin (IZR (Z.of_N l) / 100) ->
  let in_cm (st : SizeForm) :=
    form_unit st = cm
    /\ reads_within (form_width st) (IZR (Z.of_N k) / 100 * 2.54) (1 / 100)
    /\ reads_within (form_height st) (IZR (Z.of_N l) / 100 * 2.54) (1 / 100) in
  (exists mid, handleUnitChange cm (mkForm inches w h) = Some mid /\ in_cm mid)
  /\ (forall mid,
        in_cm mid ->
        handleUnitChange inches mid
        = Some (mkForm inches (Str.fixed k 2) (Str.fixed l 2))).
Proof.
  intros _ _ Hw Hh in_cm. split.
  - destruct (field_to_cm w k Hw) as (mw & Hmw & Hcw).
    destruct (field_to_cm h l Hh) as (mh & Hmh & Hch).
    exists (mkForm cm mw mh).
    unfold handleUnitChange. cbn [form_unit form_width form_height].
    rewrite Hmw, Hmh. repeat split; assumption.
  - intros [u mw mh] (Hu & Hcw & Hch).
    cbn [form_unit form_width form_height] in Hu, Hcw, Hch. subst u.
    unfold handleUnitChange. cbn [form_unit form_width form_height].
    rewrite (field_from_cm mw k Hcw), (field_from_cm mh l Hch).
    reflexivity.
Qed.

Lemma parseFloat_3_hundredths : Str.parseFloat "3" = Fin (IZR (Z.of_N 300) / 100).
Proof. rewrite parseFloat_3. f_equal. cbn. lra. Qed.

Lemma parseFloat_2_hundredths : Str.parseFloat "2" = Fin (IZR (Z.of_N 200) / 100).
Proof. rewrite parseFloat_2. f_equal. cbn. lra. Qed.

(** The default fields, 3 by 2 inches. *)
Lemma handleUnitChange_inches_round_trip_witness :
  let in_cm (st : SizeForm) :=
    form_unit st = cm
    /\ reads_within (form_width st) (IZR (Z.of_N 300) / 100 * 2.54) (1 / 100)
    /\ reads_within (form_height st) (IZR (Z.of_N 200) / 100 * 2.54) (1 / 100) in
  (300 < 10 ^ 9)%N /\ (200 < 10 ^ 9)%N
  /\ Str.parseFloat "3" = Fin (IZR (Z.of_N 300) / 100)
  /\ Str.parseFloat "2" = Fin (IZR (Z.of_N 200) / 100)
  /\ (exists mid,
        handleUnitChange cm (mkForm inches "3" "2") = Some mid /\ in_cm mid)
  /\ (forall mid,
        in_cm mid ->
        handleUnitChange inches mid
        = Some (mkForm inches (Str.fixed 300 2) (Str.fixed 200 2))).
Proof.
  intros in_cm.
  split; [reflexivity | split; [reflexivity |]].
  split; [exact parseFloat_3_hundredths |].
  split; [exact parseFloat_2_hundredths |].
  exact (handleUnitChange_inches_round_trip "3" "2" 300 200
           eq_refl eq_refl
           parseFloat_3_hundredths parseFloat_2_hundredths).
Defined.

Example fixed_300 : Str.fixed 300 2 = "3.00"%string.
Proof. vm_compute. reflexivity. Qed.

(** ** Formatting a size and parsing it back *)

Section RoundTrip.

Local Open Scope string_scope.

Lemma strip_leading_zeros_spec (l : list ascii) :
  exists j, l = (repeat "0"%char j ++ Str.strip_leading_zeros l)%list.
Proof.
  induction l as [| c l (j & IH)]; [now exists 0%nat |].
  cbn [Str.strip_leading_zeros].
  destruct (Ascii.eqb c "0") eqn:Hc.
  - apply Ascii.eqb_eq in Hc. subst c.
    exists (S j). cbn. now rewrite <- IH.
  - now exists 0%nat.
Qed.

Lemma rev_repeat_zero (j : nat) :
  rev (repeat "0"%char j) = repeat "0"%char j.
Proof.
  induction j as [| j IH]; [reflexivity |].
  cbn. rewrite IH. now rewrite repeat_cons.
Qed.

Lemma string_of_list_app (a b : list ascii) :
  string_of_list_ascii (a ++ b)%list
  = string_of_list_ascii a ++ string_of_list_ascii b.
Proof. induction a as [| c a IH]; cbn; [reflexivity | now rewrite IH]. Qed.

Lemma string_of_repeat_zero (j : nat) :
  string_of_list_ascii (repeat "0"%char j) = Str.zeros j.
Proof. induction j as [| j IH]; cbn; [reflexivity | now rewrite IH]. Qed.

(** Stripping trailing zeros removes a run of zeros at the end. *)
Lemma strip_trailing_zeros_spec (s : string) :
  exists j, s = Str.strip_trailing_zeros s ++ Str.zeros j.
Proof.
  unfold Str.strip_trailing_zeros.
  destruct (strip_leading_zeros_spec (rev (list_ascii_of_string s)))
    as [j Hj].
  exists j.
  rewrite <- string_of_repeat_zero, <- string_of_list_app.
  rewrite <- rev_repeat_zero, <- rev_app_distr, <- Hj, rev_involutive.
  now rewrite string_of_list_ascii_of_string.
Qed.

(** What [toString] writes for [n / 10^f]: the integer digits and, unless
    they are all zero, the fraction digits without their trailing zeros. *)
Lemma toString_printed (n : N) (f : nat) :
  n <> 0%N ->
  exists ip fp' j,
    Str.toString (Str.LNum false n (- Z.of_nat f))
    = match fp' with
      | EmptyString => ip
      | _ => ip ++ "." ++ fp'
      end
    /\ all_digits ip = true /\ all_digits fp' = true
    /\ (1 <= String.length ip)%nat
    /\ (String.length fp' + j)%nat = f
    /\ (number_from 0 (ip ++ fp') * 10 ^ N.of_nat j)%N = n.
Proof.
  intros Hn. unfold Str.toString.
  destruct n as [| p]; [contradiction |].
  destruct f as [| f].
  - exists (Str.digits_of (Npos p)), "", 0%nat.
    cbn [Z.of_nat Z.opp Z.leb Z.compare Z.to_nat Str.zeros].
    rewrite !append_nil_r.
    repeat split.
    + apply digits_of_all.
    + apply digits_of_nonempty.
    + rewrite number_from_digits_of. cbn. lia.
  - replace (0 <=? - Z.of_nat (S f))%Z with false
      by (symmetry; apply Z.leb_gt; lia).
    replace (Z.to_nat (- - Z.of_nat (S f))) with (S f) by lia.
    destruct (positional_parts (Npos p) (S f))
      as (ip & fp & -> & Hip & Hfp & Hlen & Hfl & Hnum).
    destruct (strip_trailing_zeros_spec fp) as [j Hj].
    set (fp' := Str.strip_trailing_zeros fp) in *.
    assert (Hfp' : all_digits fp' = true).
    { rewrite Hj, all_digits_app in Hfp.
      now apply andb_true_iff in Hfp as [H _]. }
    exists ip, fp', j.
    split; [destruct fp'; reflexivity |].
    repeat split; try assumption.
    + rewrite <- Hfl, Hj. now rewrite length_app, length_zeros.
    + rewrite <- Hnum, Hj. rewrite <- append_assoc.
      now rewrite (number_from_app (ip ++ fp')), number_from_zeros.
Qed.

Lemma all_digits_numeric (a : string) : all_digits a = true -> numeric a = true.
Proof.
  induction a as [| c a IH]; cbn; [reflexivity |].
  intros H. apply andb_true_iff in H as [Hc Ha].
  now rewrite Hc, IH.
Qed.

Lemma numeric_app (a b : string) : numeric (a ++ b) = numeric a && numeric b.
Proof.
  induction a as [| c a IH]; cbn; [reflexivity |].
  now rewrite IH, andb_assoc.
Qed.

(** Parsing what [toString] wrote gives the value back, and the text is
    made of digits and points only. *)
Lemma parseFloat_printed (n : N) (f : nat) (rest : string) :
  n <> 0%N -> ends_literal rest = true ->
  Str.parseFloat (Str.toString (Str.LNum false n (- Z.of_nat f)) ++ rest)
  = Fin (IZR (Z.of_N n) / 10 ^ f)
  /\ numeric (Str.toString (Str.LNum false n (- Z.of_nat f))) = true.
Proof.
  intros Hn Hrest.
  destruct (toString_printed n f Hn)
    as (ip & fp' & j & -> & Hip & Hfp & Hlen & Hfl & Hnum).
  assert (Hval : IZR (Z.of_N n) / 10 ^ f
                 = IZR (Z.of_N (number_from 0 (ip ++ fp')))
                   / 10 ^ String.length fp').
  { rewrite <- Hnum, <- Hfl.
    rewrite N2Z.inj_mul, N2Z.inj_pow, mult_IZR.
    rewrite nat_N_Z. cbn [Z.of_N]. rewrite <- pow_IZR.
    rewrite pow_add.
    assert (0 < 10 ^ String.length fp') by (apply pow_lt; lra).
    assert (0 < 10 ^ j) by (apply pow_lt; lra).
    field. lra. }
  rewrite Hval. unfold Str.parseFloat.
  destruct fp' as [| c fp'].
  - rewrite append_nil_r. rewrite parseLiteral_integer by assumption.
    split; [| now apply all_digits_numeric].
    cbn [Str.literal_num].
    change 0%Z with (- Z.of_nat 0)%Z. now rewrite literal_value.
  - rewrite !append_assoc. rewrite parseLiteral_fraction by assumption.
    split.
    + cbn [Str.literal_num]. now rewrite literal_value.
    + rewrite numeric_app, all_digits_numeric by assumption.
      cbn [append]. change (numeric (String "." (String c fp')))
        with (numeric (String c fp')).
      cbn [andb]. now apply all_digits_numeric.
Qed.

(** Digits and points are not letters: they can be skipped when looking
    for a unit. *)
Lemma lower_numeric (c : ascii) :
  (Str.is_digit c || Ascii.eqb c ".")%bool = true -> Str.lower c = c.
Proof.
  destruct c as [[] [] [] [] [] [] [] []]; cbn; intros H;
    try discriminate; reflexivity.
Qed.

Lemma includes_numeric (a b sub' : string) (c0 : ascii) :
  numeric a = true ->
  (Str.is_digit c0 || Ascii.eqb c0 ".")%bool = false ->
  Str.includes (Str.toLowerCase (a ++ b)) (String c0 sub')
  = Str.includes (Str.toLowerCase b) (String c0 sub').
Proof.
  intros Ha Hc0. induction a as [| c a IH]; [reflexivity |].
  cbn in Ha. apply andb_true_iff in Ha as [Hc Ha].
  cbn [append Str.toLowerCase Str.includes String.prefix].
  rewrite (lower_numeric c Hc).
  destruct (ascii_dec c0 c) as [-> | _]; [congruence |].
  cbn [orb]. now apply IH.
Qed.

End RoundTrip.

(** Rounding [b * T / P] to the nearest integer [n] is off by at most a
    half, so [n / T * P] is within [P / (2 T)] of [b]. *)
Lemma rounding_error (b P T : Z) :
  (0 < P)%Z -> (0 < T)%Z ->
  let n := ((2 * b * T + P) / (2 * P))%Z in
  Rabs (IZR n / IZR T * IZR P - IZR b) <= IZR P / (2 * IZR T).
Proof.
  intros HP HT n.
  assert (HPR : 0 < IZR P) by now apply IZR_lt.
  assert (HTR : 0 < IZR T) by now apply IZR_lt.
  pose proof (Z.mul_div_le (2 * b * T + P) (2 * P) ltac:(lia)) as Hlo.
  pose proof (Z.mul_succ_div_gt (2 * b * T + P) (2 * P) ltac:(lia)) as Hhi.
  fold n in Hlo, Hhi.
  assert (Hlo' : (2 * (n * P) <= 2 * (b * T) + P)%Z) by lia.
  assert (Hhi' : (2 * (b * T) + P < 2 * (n * P) + 2 * P)%Z) by lia.
  apply IZR_le in Hlo'. apply IZR_lt in Hhi'.
  repeat rewrite ?plus_IZR, ?mult_IZR in Hlo'.
  repeat rewrite ?plus_IZR, ?mult_IZR in Hhi'.
  replace (IZR n / IZR T * IZR P - IZR b)
    with ((IZR n * IZR P - IZR b * IZR T) / IZR T) by (field; lra).
  unfold Rdiv at 1. rewrite Rabs_mult.
  rewrite (Rabs_right (/ IZR T))
    by (apply Rle_ge; left; now apply Rinv_0_lt_compat).
  replace (IZR P / (2 * IZR T)) with (IZR P / 2 * / IZR T) by (field; lra).
  apply Rmult_le_compat_r; [left; now apply Rinv_0_lt_compat |].
  apply Rabs_le. lra.
Qed.

(** X16: formatting a size and parsing the text back.  For a byte count
    from 1 up to 1024^4 - 1 and at most 100 decimals (2 by default, negative
    ones count as 0), [parseFileSize] reads the text of [formatFileSize] as a
    number within one unit of the last decimal written, scaled by the unit,
    of the byte count; the relative error is at most [1 / 10^decimals].
    (The text is the count rounded to the nearest such decimal, so that the
    distance is half a unit before any rounding of the number read; the
    bound of one unit leaves room for that rounding.) *)
Theorem parse_format_round_trip (bytes : Z) (decimals : option Z) :
  let d := match decimals with Some d => d | None => 2%Z end in
  let dm := if (d <? 0)%Z then 0%Z else d in
  (1 <= bytes < 1024 ^ 4)%Z ->
  (dm <= 100)%Z ->
  exists s r,
    formatFileSize (Fin (IZR bytes)) decimals = Some s
    /\ parseFileSize s = Fin r
    /\ Rabs (r - IZR bytes)
       <= IZR (1024 ^ (Z.log2 bytes / 10)) / 10 ^ Z.to_nat dm
    /\ Rabs (r - IZR bytes) <= IZR bytes / 10 ^ Z.to_nat dm.
Proof.
  intros d dm Hb Hdm.
  assert (Hdm0 : (0 <= dm)%Z) by (unfold dm; destruct (Z.ltb_spec d 0); lia).
  rewrite formatFileSize_integer by lia.
  unfold formatBytes. fold d. cbv zeta. fold dm.
  replace (bytes =? 0)%Z with false by (symmetry; apply Z.eqb_neq; lia).
  replace (100 <? dm)%Z with false by (symmetry; apply Z.ltb_ge; lia).
  destruct (unit_index_bounds bytes ltac:(lia)) as (_ & Hlo & _).
  pose proof (unit_index_in_range bytes Hb) as Hi.
  set (i := (Z.log2 bytes / 10)%Z) in *.
  set (P := (1024 ^ i)%Z) in *.
  set (T := (10 ^ dm)%Z).
  assert (HP : (0 < P)%Z) by (apply Z.pow_pos_nonneg; lia).
  assert (HT : (0 < T)%Z) by (apply Z.pow_pos_nonneg; lia).
  set (n := ((2 * bytes * T + P) / (2 * P))%Z).
  assert (Hn : (1 <= n)%Z).
  { apply Z.div_le_lower_bound; [lia |]. nia. }
  assert (HTR : 10 ^ Z.to_nat dm = IZR T).
  { unfold T. rewrite pow_IZR, Z2Nat.id by assumption. reflexivity. }
  rewrite <- (append_nil_r (Str.fixed (Z.to_N n) (Z.to_nat dm))).
  rewrite parseLiteral_fixed by reflexivity.
  set (text := Str.toString _).
  assert (Hparse : forall rest,
             ends_literal rest = true ->
             Str.parseFloat (text ++ rest)%string = Fin (IZR n / IZR T)
             /\ numeric text = true).
  { intros rest Hrest. unfold text.
    destruct (parseFloat_printed (Z.to_N n) (Z.to_nat dm) rest
                ltac:(lia) Hrest) as [Hv Hnum].
    rewrite Z2N.id in Hv by lia. rewrite HTR in Hv. now split. }
  pose proof (rounding_error bytes P T HP HT) as Herr. fold n in Herr.
  assert (HPR : 0 < IZR P) by now apply IZR_lt.
  assert (HTpos : 0 < IZR T) by now apply IZR_lt.
  assert (Hhalf : IZR P / (2 * IZR T) <= IZR P / IZR T).
  { replace (IZR P / (2 * IZR T)) with (IZR P / IZR T / 2) by (field; lra).
    pose proof (Rdiv_lt_0_compat _ _ HPR HTpos). lra. }
  assert (Hrel : IZR P / IZR T <= IZR bytes / IZR T).
  { apply IZR_le in Hlo.
    unfold Rdiv. apply Rmult_le_compat_r; [| exact Hlo].
    left. now apply Rinv_0_lt_compat. }
  rewrite HTR.
  assert (Hfinish : forall r,
             r = IZR n / IZR T * IZR P ->
             Rabs (r - IZR bytes) <= IZR P / IZR T
             /\ Rabs (r - IZR bytes) <= IZR bytes / IZR T).
  { intros r ->. split; lra. }
  assert (Hread : forall unit,
             ends_literal (" " ++ unit)%string = true ->
             exists v,
               Str.parseFloat (text ++ " " ++ unit)%string = Fin v
               /\ v = IZR n / IZR T
               /\ forall c0 sub',
                    (Str.is_digit c0 || Ascii.eqb c0 ".")%bool = false ->
                    Str.includes (Str.toLowerCase (text ++ " " ++ unit))
                      (String c0 sub')
                    = Str.includes (Str.toLowerCase (" " ++ unit))
                        (String c0 sub')).
  { intros unit Hunit. destruct (Hparse _ Hunit) as [Hv Hnum].
    eexists. split; [exact Hv | split; [reflexivity |]].
    intros c0 sub' Hc0. now apply includes_numeric. }
  assert (Hcase : i = 0%Z \/ i = 1%Z \/ i = 2%Z \/ i = 3%Z) by lia.
  destruct Hcase as [Hi0 | [Hi1 | [Hi2 | Hi3]]].
  - rewrite Hi0. cbn [Z.to_nat nth].
    destruct (Hread "Bytes"%string eq_refl) as (v & Hv & -> & Hinc).
    eexists _, (IZR n / IZR T). split; [reflexivity |].
    split.
    + unfold parseFileSize. rewrite Hv. cbn [JS.isNaN].
      rewrite !Hinc by reflexivity. reflexivity.
    + apply Hfinish. unfold P. rewrite Hi0. cbn [Z.pow]. lra.
  - rewrite Hi1. change (Z.to_nat 1) with 1%nat. cbn [nth].
    destruct (Hread "KB"%string eq_refl) as (v & Hv & -> & Hinc).
    eexists _, (IZR n / IZR T * 1024). split; [reflexivity |].
    split.
    + unfold parseFileSize. rewrite Hv. cbn [JS.isNaN].
      rewrite !Hinc by reflexivity. reflexivity.
    + apply Hfinish. unfold P. rewrite Hi1.
      change (1024 ^ 1)%Z with 1024%Z. reflexivity.
  - rewrite Hi2. change (Z.to_nat 2) with 2%nat. cbn [nth].
    destruct (Hread "MB"%string eq_refl) as (v & Hv & -> & Hinc).
    eexists _, (IZR n / IZR T * 1024 * 1024). split; [reflexivity |].
    split.
    + unfold parseFileSize. rewrite Hv. cbn [JS.isNaN].
      rewrite !Hinc by reflexivity. reflexivity.
    + apply Hfinish. unfold P. rewrite Hi2.
      change (1024 ^ 2)%Z with (1024 * 1024)%Z. rewrite mult_IZR. ring.
  - rewrite Hi3. change (Z.to_nat 3) with 3%nat. cbn [nth].
    destruct (Hread "GB"%string eq_refl) as (v & Hv & -> & Hinc).
    eexists _, (IZR n / IZR T * 1024 * 1024 * 1024).
    split; [reflexivity |].
    split.
    + unfold parseFileSize. rewrite Hv. cbn [JS.isNaN].
      rewrite !Hinc by reflexivity. reflexivity.
    + apply Hfinish. unfold P. rewrite Hi3.
      change (1024 ^ 3)%Z with (1024 * 1024 * 1024)%Z.
      rewrite !mult_IZR. ring.
Qed.

(** 1536 bytes are written "1.5 KB" and read back as 1536. *)
Lemma parse_format_round_trip_witness :
  (1 <= 1536 < 1024 ^ 4)%Z
  /\ (2 <= 100)%Z
  /\ exists s r,
       formatFileSize (Fin (IZR 1536)) None = Some s
       /\ parseFileSize s = Fin r
       /\ Rabs (r - IZR 1536)
          <= IZR (1024 ^ (Z.log2 1536 / 10)) / 10 ^ Z.to_nat 2
       /\ Rabs (r - IZR 1536) <= IZR 1536 / 10 ^ Z.to_nat 2.
Proof.
  split; [lia | split; [lia |]].
  apply (parse_format_round_trip 1536 None); [lia | cbn; lia].
Defined.

(** X17: below 1024^4 bytes the text of [formatFileSize] is a number
    between 1 and 1024, written with digits and at most one point, followed
    by a space and the largest of the units Bytes, KB, MB, GB that does not
    exceed the byte count. *)
Theorem formatFileSize_below_TiB (bytes : Z) (decimals : option Z) :
  let d := match decimals with Some d => d | None => 2%Z end in
  let dm := if (d <? 0)%Z then 0%Z else d in
  (1 <= bytes < 1024 ^ 4)%Z ->
  (dm <= 100)%Z ->
  exists text unit (i : nat) v,
    formatFileSize (Fin (IZR bytes)) decimals
    = Some (text ++ " " ++ unit)%string
    /\ nth_error ["Bytes"; "KB"; "MB"; "GB"]%string i = Some unit
    /\ (1024 ^ Z.of_nat i <= bytes < 1024 ^ (Z.of_nat i + 1))%Z
    /\ numeric text = true
    /\ Str.parseFloat text = Fin v
    /\ 1 <= v <= 1024.
Proof.
  intros d dm Hb Hdm.
  assert (Hdm0 : (0 <= dm)%Z) by (unfold dm; destruct (Z.ltb_spec d 0); lia).
  rewrite formatFileSize_integer by lia.
  unfold formatBytes. fold d. cbv zeta. fold dm.
  replace (bytes =? 0)%Z with false by (symmetry; apply Z.eqb_neq; lia).
  replace (100 <? dm)%Z with false by (symmetry; apply Z.ltb_ge; lia).
  destruct (unit_index_bounds bytes ltac:(lia)) as (_ & Hlo & Hhi).
  pose proof (unit_index_in_range bytes Hb) as Hi.
  set (i := (Z.log2 bytes / 10)%Z) in *.
  set (P := (1024 ^ i)%Z) in *.
  set (T := (10 ^ dm)%Z).
  assert (HP : (0 < P)%Z) by (apply Z.pow_pos_nonneg; lia).
  assert (HT : (0 < T)%Z) by (apply Z.pow_pos_nonneg; lia).
  assert (HP' : (1024 ^ (i + 1) = 1024 * P)%Z)
    by (unfold P; rewrite Z.pow_add_r by lia; lia).
  rewrite HP' in Hhi.
  set (n := ((2 * bytes * T + P) / (2 * P))%Z).
  assert (Hn1 : (T <= n)%Z).
  { apply Z.div_le_lower_bound; [lia |]. nia. }
  assert (Hn2 : (n < 1024 * T + 1)%Z).
  { apply Z.div_lt_upper_bound; [lia |]. nia. }
  assert (HTR : 10 ^ Z.to_nat dm = IZR T).
  { unfold T. rewrite pow_IZR, Z2Nat.id by assumption. reflexivity. }
  rewrite <- (append_nil_r (Str.fixed (Z.to_N n) (Z.to_nat dm))).
  rewrite parseLiteral_fixed by reflexivity.
  set (text := Str.toString _).
  destruct (parseFloat_printed (Z.to_N n) (Z.to_nat dm) ""
              ltac:(lia) eq_refl) as [Hv Hnum].
  fold text in Hv, Hnum.
  rewrite append_nil_r, Z2N.id, HTR in Hv by lia.
  assert (HTpos : 0 < IZR T) by now apply IZR_lt.
  assert (Hbound : 1 <= IZR n / IZR T <= 1024).
  { apply IZR_le in Hn1.
    assert (Hn3 : IZR n <= 1024 * IZR T).
    { rewrite <- mult_IZR. apply IZR_le. lia. }
    split.
    - apply Rmult_le_reg_r with (IZR T); [assumption |].
      unfold Rdiv. rewrite Rmult_assoc, Rinv_l by lra. lra.
    - apply Rmult_le_reg_r with (IZR T); [assumption |].
      unfold Rdiv. rewrite Rmult_assoc, Rinv_l by lra. lra. }
  exists text, (nth (Z.to_nat i) ["Bytes"; "KB"; "MB"; "GB"]%string
                  "undefined"%string), (Z.to_nat i), (IZR n / IZR T).
  rewrite Z2Nat.id by lia.
  split; [reflexivity |].
  split.
  { assert (Hcase : i = 0%Z \/ i = 1%Z \/ i = 2%Z \/ i = 3%Z) by lia.
    destruct Hcase as [-> | [-> | [-> | ->]]]; reflexivity. }
  repeat split; try assumption; try lra; lia.
Qed.

(** One mebibyte and a bit: "1.18 MB". *)
Lemma formatFileSize_below_TiB_witness :
  (1 <= 1234567 < 1024 ^ 4)%Z
  /\ (2 <= 100)%Z
  /\ exists text unit (i : nat) v,
       formatFileSize (Fin (IZR 1234567)) None
       = Some (text ++ " " ++ unit)%string
       /\ nth_error ["Bytes"; "KB"; "MB"; "GB"]%string i = Some unit
       /\ (1024 ^ Z.of_nat i <= 1234567 < 1024 ^ (Z.of_nat i + 1))%Z
       /\ numeric text = true
       /\ Str.parseFloat text = Fin v
       /\ 1 <= v <= 1024.
Proof.
  split; [lia | split; [lia |]].
  apply (formatFileSize_below_TiB 1234567 None); [lia | cbn; lia].
Defined.

(** ** The slider maximum of the resizer *)

Section Slider.

Local Open Scope string_scope.

Lemma number_from_linear (s : string) (acc : N) :
  number_from acc s
  = (acc * 10 ^ N.of_nat (String.length s) + number_from 0 s)%N.
Proof.
  revert acc. induction s as [| c s IH]; intros acc.
  - cbn. lia.
  - cbn [number_from String.length].
    rewrite (IH (acc * 10 + Str.digit_value c)%N).
    rewrite (IH (0 * 10 + Str.digit_value c)%N).
    rewrite Nat2N.inj_succ, N.pow_succ_r'. ring.
Qed.

Lemma digit_value_bound (c : ascii) :
  Str.is_digit c = true -> (Str.digit_value c <= 9)%N.
Proof.
  unfold Str.is_digit, Str.digit_value. intros H.
  apply andb_true_iff in H as [H1 H2].
  apply N.leb_le in H1, H2. lia.
Qed.

Lemma number_from_bound (s : string) :
  all_digits s = true ->
  (number_from 0 s < 10 ^ N.of_nat (String.length s))%N.
Proof.
  induction s as [| c s IH]; intros H; [cbn; lia |].
  cbn in H. apply andb_true_iff in H as [Hc Hs].
  cbn [number_from String.length].
  rewrite number_from_linear. specialize (IH Hs).
  pose proof (digit_value_bound c Hc).
  rewrite Nat2N.inj_succ, N.pow_succ_r'. nia.
Qed.

(** The integer digits [toString] writes for [n / 10^f] denote the whole
    part of that number. *)
Lemma printed_whole_part (ip fp' : string) (j f : nat) (n : N) :
  all_digits fp' = true ->
  (String.length fp' + j)%nat = f ->
  (number_from 0 (ip ++ fp') * 10 ^ N.of_nat j)%N = n ->
  number_from 0 ip = (n / 10 ^ N.of_nat f)%N.
Proof.
  intros Hfp Hf Hn.
  rewrite number_from_app, number_from_linear in Hn.
  pose proof (number_from_bound fp' Hfp) as Hb.
  set (l := N.of_nat (String.length fp')) in *.
  assert (Hpow : (10 ^ N.of_nat f = 10 ^ l * 10 ^ N.of_nat j)%N).
  { rewrite <- Hf, Nat2N.inj_add. apply N.pow_add_r. }
  assert (Hj : (0 < 10 ^ N.of_nat j)%N) by (apply N.neq_0_lt_0, N.pow_nonzero; lia).
  apply (N.div_unique n _ _ (number_from 0 fp' * 10 ^ N.of_nat j)%N).
  - rewrite Hpow. nia.
  - rewrite <- Hn, Hpow. ring.
Qed.

Lemma numeric_not_space (c : ascii) :
  (Str.is_digit c || Ascii.eqb c ".")%bool = true -> Ascii.eqb c " " = false.
Proof.
  destruct c as [[] [] [] [] [] [] [] []]; cbn; intros H;
    try discriminate; reflexivity.
Qed.

Lemma split_numeric (a b : string) :
  numeric a = true ->
  split " " (a ++ String " " b) = a :: split " " b.
Proof.
  induction a as [| c a IH]; intros H; [reflexivity |].
  cbn in H. apply andb_true_iff in H as [Hc Ha].
  cbn [append split]. rewrite (numeric_not_space c Hc).
  now rewrite (IH Ha).
Qed.

(** Without an [x] after a leading zero, [parseInt] reads in base 10. *)
Lemma decimal_radix (T : Type) (H : string -> T) (D : T) (u : string) :
  (forall c r, u = String "0" (String c r) ->
               (Ascii.eqb c "x" || Ascii.eqb c "X")%bool = false) ->
  match u with
  | String "0" (String c r) =>
      if (Ascii.eqb c "x" || Ascii.eqb c "X")%bool then H r else D
  | _ => D
  end = D.
Proof.
  intros Hx. destruct u as [| c0 [| c1 r]]; [reflexivity | |].
  - destruct c0 as [[] [] [] [] [] [] [] []]; reflexivity.
  - destruct c0 as [[] [] [] [] [] [] [] []]; try reflexivity.
    now rewrite (Hx c1 r eq_refl).
Qed.

Lemma not_hex_mark (c : ascii) :
  (Str.is_digit c || Ascii.eqb c ".")%bool = true ->
  (Ascii.eqb c "x" || Ascii.eqb c "X")%bool = false.
Proof.
  destruct c as [[] [] [] [] [] [] [] []]; cbn; intros H;
    try discriminate; reflexivity.
Qed.

Lemma parseInt_unsigned (u : string) :
  Str.sign (Str.trimStart u) = (false, u) ->
  Int.parseInt u
  = let '(v, n, _) :=
      match u with
      | String "0" (String c r) =>
          if (Ascii.eqb c "x" || Ascii.eqb c "X")%bool
          then Int.hex_digits 0 0 r
          else Str.digits 0 0 u
      | _ => Str.digits 0 0 u
      end in
    match n with
    | O => NaN
    | S _ => Fin (IZR (Z.of_N v))
    end.
Proof. intros H. unfold Int.parseInt. rewrite H. reflexivity. Qed.

(** [parseInt] on digits followed by nothing or by a fraction. *)
Lemma parseInt_digits (ip rest : string) :
  all_digits ip = true -> (1 <= String.length ip)%nat ->
  match rest with String c _ => c = "."%char | EmptyString => True end ->
  Int.parseInt (ip ++ rest) = Fin (IZR (Z.of_N (number_from 0 ip))).
Proof.
  intros Hip Hlen Hrest.
  destruct ip as [| c ip]; [cbn in Hlen; lia |].
  pose proof Hip as Hall.
  cbn in Hip. apply andb_true_iff in Hip as [Hc Hip].
  rewrite parseInt_unsigned.
  - rewrite decimal_radix.
    + rewrite digits_all by assumption.
      rewrite digits_stop
        by (destruct rest as [| c' r]; [exact I | now subst c']).
      cbn [String.length Nat.add]. reflexivity.
    + intros c1 r Heq. cbn [append] in Heq. injection Heq as _ Heq.
      apply not_hex_mark.
      destruct ip as [| c' ip].
      * cbn in Heq. destruct rest as [| c' r']; [discriminate |].
        injection Heq as <- _. now subst c'.
      * cbn in Heq. injection Heq as <- _.
        cbn in Hip. apply andb_true_iff in Hip as [Hc' _].
        now rewrite Hc'.
  - cbn [append].
    destruct (sign_digit c (ip ++ rest) Hc) as (-> & -> & _). reflexivity.
Qed.

(** X18: the slider maximum, from the file size.  The original size is
    shown by [formatFileSize] with two decimals; let [whole] be the whole
    part of the number shown.  When the size is shown in KB or MB,
    [getOriginalSizeInCurrentUnit] is [whole], converted by 1024 if the
    slider uses the other unit: the decimals shown are dropped.  When it is
    shown in Bytes or GB the result is the fixed 5000 (slider in KB) or 5
    (slider in MB), whatever the size. *)
Theorem slider_maximum_from_size (bytes : Z) (sizeType : SizeType) :
  (1 <= bytes < 1024 ^ 4)%Z ->
  let i := (Z.log2 bytes / 10)%Z in
  let shown := ((2 * bytes * 100 + 1024 ^ i) / (2 * 1024 ^ i))%Z in
  let whole := IZR (shown / 100) in
  exists originalSize,
    formatFileSize (Fin (IZR bytes)) None = Some originalSize
    /\ getOriginalSizeInCurrentUnit originalSize sizeType
       = match sizeType with
         | KB =>
             if (i =? 1)%Z then Fin whole
             else if (i =? 2)%Z then Fin (whole * 1024)
             else Fin 5000
         | MB =>
             if (i =? 2)%Z then Fin whole
             else if (i =? 1)%Z then Fin (whole / 1024)
             else Fin 5
         end.
Proof.
  intros Hb i shown whole.
  rewrite formatFileSize_integer by lia.
  unfold formatBytes. cbv zeta.
  replace (bytes =? 0)%Z with false by (symmetry; apply Z.eqb_neq; lia).
  cbn [Z.ltb Z.compare Pos.compare Pos.compare_cont].
  destruct (unit_index_bounds bytes ltac:(lia)) as (_ & Hlo & _).
  pose proof (unit_index_in_range bytes Hb) as Hi.
  fold i in Hlo, Hi |- *.
  change (10 ^ 2)%Z with 100%Z. fold shown.
  assert (HP : (0 < 1024 ^ i)%Z) by (apply Z.pow_pos_nonneg; lia).
  assert (Hshown : (1 <= shown)%Z).
  { apply Z.div_le_lower_bound; [lia |]. nia. }
  change (Z.to_nat 2) with 2%nat.
  rewrite <- (append_nil_r (Str.fixed (Z.to_N shown) 2)).
  rewrite parseLiteral_fixed by reflexivity.
  destruct (toString_printed (Z.to_N shown) 2 ltac:(lia))
    as (ip & fp' & j & Htext & Hip & Hfp & Hlen & Hfl & Hnum).
  set (text := Str.toString _) in *.
  assert (Hwhole : Int.parseInt text = Fin whole).
  { rewrite Htext.
    assert (Hval : IZR (Z.of_N (number_from 0 ip)) = whole).
    { rewrite (printed_whole_part ip fp' j 2 (Z.to_N shown)) by assumption.
      unfold whole. f_equal.
      rewrite N2Z.inj_div, Z2N.id by lia. reflexivity. }
    destruct fp' as [| c fp'].
    - rewrite <- (append_nil_r ip).
      rewrite parseInt_digits by (assumption || exact I). now rewrite Hval.
    - rewrite parseInt_digits by (assumption || reflexivity).
      now rewrite Hval. }
  assert (Hnumeric : numeric text = true).
  { rewrite Htext. destruct fp' as [| c fp'].
    - now apply all_digits_numeric.
    - rewrite numeric_app, all_digits_numeric by assumption.
      cbn [append]. change (numeric (String "." (String c fp')))
        with (numeric (String c fp')).
      cbn [andb]. now apply all_digits_numeric. }
  eexists. split; [reflexivity |].
  unfold getOriginalSizeInCurrentUnit.
  cbn [append]. rewrite split_numeric by assumption.
  cbn [nth_error element_string]. rewrite Hwhole.
  assert (Hcase : i = 0%Z \/ i = 1%Z \/ i = 2%Z \/ i = 3%Z) by lia.
  destruct Hcase as [-> | [-> | [-> | ->]]]; destruct sizeType;
    cbn -[JS.mul JS.div]; try reflexivity.
  now rewrite div_Fin by lra.
Qed.

(** 1536 bytes are shown as "1.5 KB": the slider in KB goes up to 1. *)
Lemma slider_maximum_from_size_witness :
  (1 <= 1536 < 1024 ^ 4)%Z
  /\ exists originalSize,
       formatFileSize (Fin (IZR 1536)) None = Some originalSize
       /\ getOriginalSizeInCurrentUnit originalSize KB = Fin (IZR 1).
Proof.
  split; [lia |].
  exact (slider_maximum_from_size 1536 KB ltac:(lia)).
Defined.

End Slider.
